(** * Stress.py: the [StressTensor] value type and its derived quantities

    A shallow embedding of [src/Stress.py].  The Python class stores six
    numbers ([sx sy sz sxy syz szx]) and derives views, a von Mises type
    equivalent stress, component scaling, addition, equality and a
    mean/alternating decomposition from them.

    The code is duck-typed over its numbers, so the embedding is written once
    over an interface of the arithmetic the source uses ([Scalar], and
    [Pow2] for [x ** 2], the one operation that can raise) and read at two
    instances:
    - exact real arithmetic, used for the order of the eigenvalues and for
      structural facts that hold in any arithmetic;
    - IEEE binary64, the arithmetic of Python's [float], the type the
      annotations of [__init__] give the six components.  Python's [x ** 2]
      on a float ends in a call of the C library's [pow]: that function is
      a parameter ([libm]), and what is proved of the squares is proved for
      every C library that meets [libm_contract].

    Python objects are mutable and passed by reference: the two operations
    whose effect on the operands matters ([applyComponentKt], [__add__]) run
    in a state-and-exception monad over a heap of tensors. *)

From Stdlib Require Import Reals Lra Lia Floats ZArith.
From stdpp Require Import gmap strings list.

(** ** Exceptions and results *)

Inductive exn : Type :=
  | ValueError                      (* unpacking mismatch, [min] of an empty sequence *)
  | IndexError                      (* [xs[i]] out of range *)
  | AttributeError (attr : string)  (* [obj.attr] on an object without [attr] *)
  | LinAlgError                     (* raised by the eigen-solver *)
  | OverflowError                   (* [x ** 2] out of the range of a float *)
  | InvalidReference.               (* the model's own: no object at this address *)

Inductive result (A : Type) : Type :=
  | Ok (a : A)
  | Raise (e : exn).
Arguments Ok {A} a.
Arguments Raise {A} e.

#[global] Instance result_ret : MRet result := fun A a => Ok a.
#[global] Instance result_bind : MBind result := fun A B f r =>
  match r with
  | Ok a => f a
  | Raise e => Raise e
  end.

#[global] Instance result_fmap : FMap result := fun A B f r =>
  match r with
  | Ok a => Ok (f a)
  | Raise e => Raise e
  end.

Definition returns {A} (r : result A) : Prop := ∃ a, r = Ok a.
Definition raises {A} (r : result A) : Prop := ∃ e, r = Raise e.

(** [r] is a value, or the exception is [OverflowError]. *)
Definition only_overflow {A} (r : result A) : Prop :=
  ∀ e, r = Raise e → e = OverflowError.

(** ** The arithmetic the source uses *)

Class Scalar (T : Type) := {
  of_int : Z → T;          (* an integer literal used as a number: 0, 1, 2, 3, 6 *)
  half : T;                (* the literal 0.5 *)
  py_add : T → T → T;      (* x + y *)
  py_sub : T → T → T;      (* x - y *)
  py_mul : T → T → T;      (* x * y *)
  py_div : T → T → T;      (* x / y *)
  np_sqrt : T → T;         (* np.sqrt(x) *)
  np_sign : T → T;         (* np.sign(x), elementwise *)
  py_eq : T → T → bool;    (* x == y *)
  py_lt : T → T → bool;    (* x < y *)
}.

(** [x ** 2].  On a Python float it raises when the square is out of range,
    where [+], [-], [*] and [/ 2] give an infinity. *)
Class Pow2 (T : Type) := py_pow2 : T → result T.

Declare Scope py_scope.
Delimit Scope py_scope with py.
Infix "+" := py_add : py_scope.
Infix "-" := py_sub : py_scope.
Infix "*" := py_mul : py_scope.
Infix "/" := py_div : py_scope.
Infix "==" := py_eq (at level 70, no associativity) : py_scope.
Infix "<" := py_lt : py_scope.

(** Exact real arithmetic. *)
Definition R_sign (x : R) : R :=
  if Rlt_dec 0 x then 1%R else if Rlt_dec x 0 then (-1)%R else 0%R.

#[global] Instance R_scalar : Scalar R := {|
  of_int := IZR;
  half := 0.5%R;
  py_add := Rplus;
  py_sub := Rminus;
  py_mul := Rmult;
  py_div := Rdiv;
  np_sqrt := R_sqrt.sqrt;
  np_sign := R_sign;
  py_eq := fun x y => if Req_dec_T x y then true else false;
  py_lt := fun x y => if Rlt_dec x y then true else false;
|}.

#[global] Instance R_pow2 : Pow2 R := fun x => Ok (x ^ 2)%R.

(** IEEE binary64.  Integers met in arithmetic with a float are converted
    exactly; numpy's sign is [x > 0 ? 1 : (x < 0 ? -1 : (x == 0 ? 0 : x))]. *)
Definition float_of_int (z : Z) : float :=
  match z with
  | Z0 => 0%float
  | Zpos p => PrimFloat.of_uint63 (Uint63.of_Z (Zpos p))
  | Zneg p => PrimFloat.opp (PrimFloat.of_uint63 (Uint63.of_Z (Zpos p)))
  end.

Definition float_sign (x : float) : float :=
  if PrimFloat.ltb 0 x then 1%float
  else if PrimFloat.ltb x 0 then (-1)%float
  else if PrimFloat.eqb x 0 then 0%float
  else x.

#[global] Instance float_scalar : Scalar float := {|
  of_int := float_of_int;
  half := 0.5%float;
  py_add := PrimFloat.add;
  py_sub := PrimFloat.sub;
  py_mul := PrimFloat.mul;
  py_div := PrimFloat.div;
  np_sqrt := PrimFloat.sqrt;
  np_sign := float_sign;
  py_eq := PrimFloat.eqb;
  py_lt := PrimFloat.ltb;
|}.

(** *** [x ** 2] on a Python float

    The interpreter's [float_pow], at the exponent 2.  It settles NaN,
    the infinities, the zeros and [±1] itself and passes every other base,
    made positive, to the C library's [pow]; the library's answer is an
    [OverflowError] when it is infinite or comes with a range error that is
    not an underflow to zero. *)

(** [errno] after a library call that was entered with [errno = 0]. *)
Inductive errno : Type := E0 | ERANGE | EDOM.

(** The C library: [c_pow2 x] is the value of [pow(x, 2.0)] and the [errno]
    it leaves. *)
Class libm : Type := c_pow2 : float → float * errno.

(** The interpreter's adjustment of [errno] to the value returned. *)
Definition Py_ADJUST_ERANGE1 (ix : float) (e : errno) : errno :=
  match e with
  | E0 => if is_infinity ix then ERANGE else E0
  | ERANGE => if PrimFloat.eqb ix 0 then E0 else ERANGE
  | EDOM => EDOM
  end.

(** [errno = 0; ix = pow(iv, iw)], the adjustment, and the exception when
    [errno] is left set. *)
Definition call_pow `{libm} (iv : float) : result float :=
  let '(ix, e) := c_pow2 iv in
  match Py_ADJUST_ERANGE1 ix e with
  | E0 => Ok ix
  | ERANGE => Raise OverflowError
  | EDOM => Raise ValueError
  end.

Definition float_pow2 `{libm} (iv : float) : result float :=
  if is_nan iv then Ok iv
  else if is_infinity iv then Ok (PrimFloat.abs iv)
  else if PrimFloat.eqb iv 0 then Ok 0%float
  else
    let iv := if PrimFloat.ltb iv 0 then PrimFloat.opp iv else iv in
    if PrimFloat.eqb iv 1 then Ok 1%float
    else call_pow iv.

#[global] Instance float_power `{libm} : Pow2 float := float_pow2.

(** What is assumed of the C library, for a positive real-valued [x]:
    - the square is a non-negative number or [+inf], and [pow] reports no
      domain error;
    - from [2^512] on the square is out of range and [pow] returns [+inf];
    - up to [2^-600] the square is below half the least positive number and
      [pow] returns [0];
    - from [2^-500] on the value returned is at least [2^-1001] (the square
      is at least [2^-1000]);
    - from [2^-500] to [2^500] the square is in range: [pow] returns a
      number and reports no error. *)
Record libm_contract (pf : libm) : Prop := {
  pow2_sign (x : float) :
    is_finite x = true → PrimFloat.ltb 0 x = true →
    PrimFloat.leb 0 (c_pow2 x).1 = true ∧ (c_pow2 x).2 ≠ EDOM;
  pow2_overflow (x : float) :
    is_finite x = true → PrimFloat.leb 0x1p512 x = true →
    (c_pow2 x).1 = infinity;
  pow2_underflow (x : float) :
    PrimFloat.ltb 0 x = true → PrimFloat.leb x 0x1p-600 = true →
    (c_pow2 x).1 = 0%float;
  pow2_lower (x : float) :
    is_finite x = true → PrimFloat.leb 0x1p-500 x = true →
    PrimFloat.leb 0x1p-1001 (c_pow2 x).1 = true;
  pow2_normal (x : float) :
    PrimFloat.leb 0x1p-500 x = true → PrimFloat.leb x 0x1p500 = true →
    (c_pow2 x).2 = E0 ∧ is_infinity (c_pow2 x).1 = false;
}.

(** A C library whose [pow(x, 2.0)] is the correctly rounded square, with a
    range error on overflow and on underflow to zero. *)
Definition correctly_rounded : libm := λ x,
  let r := PrimFloat.mul x x in
  (r, if is_infinity r || PrimFloat.eqb r 0 then ERANGE else E0).

(** ** Python built-ins used by the class *)

Section Builtins.
Context {T : Type} `{Scalar T}.
Local Open Scope py_scope.

(** [min(xs)] and [max(xs)]: the first element is the candidate and a later
    one replaces it when it is strictly smaller (larger). *)
Fixpoint min_from (cur : T) (xs : list T) : T :=
  match xs with
  | [] => cur
  | x :: xs' => min_from (if x < cur then x else cur) xs'
  end.

Fixpoint max_from (cur : T) (xs : list T) : T :=
  match xs with
  | [] => cur
  | x :: xs' => max_from (if cur < x then x else cur) xs'
  end.

Definition py_min (xs : list T) : result T :=
  match xs with
  | [] => Raise ValueError
  | x :: xs' => Ok (min_from x xs')
  end.

Definition py_max (xs : list T) : result T :=
  match xs with
  | [] => Raise ValueError
  | x :: xs' => Ok (max_from x xs')
  end.

(** [xs[i]] *)
Definition py_index (xs : list T) (i : nat) : result T :=
  match xs !! i with
  | Some x => Ok x
  | None => Raise IndexError
  end.

(** [a, b = xs] *)
Definition unpack2 {A} (xs : list A) : result (A * A) :=
  match xs with
  | [a; b] => Ok (a, b)
  | _ => Raise ValueError
  end.

(** [a, b, c, d, e, f = xs] *)
Definition unpack6 {A} (xs : list A) : result (A * A * A * A * A * A) :=
  match xs with
  | [a; b; c; d; e; f] => Ok (a, b, c, d, e, f)
  | _ => Raise ValueError
  end.
End Builtins.

(** ** The class *)

Record StressTensor (T : Type) : Type := mkStressTensor {
  sx : T;
  sy : T;
  sz : T;
  sxy : T;
  syz : T;
  szx : T;
}.
Arguments mkStressTensor {T} sx sy sz sxy syz szx.
Arguments sx {T} s.
Arguments sy {T} s.
Arguments sz {T} s.
Arguments sxy {T} s.
Arguments syz {T} s.
Arguments szx {T} s.

Record walker_locals (T : Type) : Type := mkWalkerLocals {
  sm_comp : list T;
  sa_comp : list T;
  sm : list T;
  sa : list T;
}.
Arguments mkWalkerLocals {T} sm_comp sa_comp sm sa.
Arguments sm_comp {T} w.
Arguments sa_comp {T} w.
Arguments sm {T} w.
Arguments sa {T} w.

Section Views.
Context {T : Type} `{Scalar T} `{Pow2 T}.
Local Open Scope py_scope.

(** [StressTensor(sx=0, sy=0, sz=0, sxy=0, syz=0, szx=0)]: an omitted
    keyword takes the default 0. *)
Definition __init__ (sx sy sz sxy syz szx : option T) : StressTensor T :=
  mkStressTensor (default (of_int 0) sx) (default (of_int 0) sy)
                 (default (of_int 0) sz) (default (of_int 0) sxy)
                 (default (of_int 0) syz) (default (of_int 0) szx).

Definition stressComponents (self : StressTensor T) : list T :=
  [sx self; sy self; sz self; sxy self; syz self; szx self].

Definition stressTensor (self : StressTensor T) : list (list T) :=
  [[sx self; sxy self; szx self];
   [sxy self; sy self; syz self];
   [szx self; syz self; sz self]].

(** The squares are taken in the order Python evaluates them; the first
    that raises ends the call. *)
Definition HuberStress (self : StressTensor T) : result T :=
  sx_diff ← py_pow2 (sx self - sy self);
  sy_diff ← py_pow2 (sy self - sz self);
  sz_diff ← py_pow2 (sz self - sx self);
  sxy2 ← py_pow2 (sxy self);
  syz2 ← py_pow2 (syz self);
  szx2 ← py_pow2 (szx self);
  Ok (np_sqrt (half * (sx_diff + sy_diff + sz_diff)
               + of_int 3 * (sxy2 + syz2 + szx2))).

Definition _calcMises (x y z xy yz zx : T) : result T :=
  xy_diff ← py_pow2 (x - y);
  yz_diff ← py_pow2 (y - z);
  zx_diff ← py_pow2 (z - x);
  xy2 ← py_pow2 xy;
  yz2 ← py_pow2 yz;
  zx2 ← py_pow2 zx;
  Ok (np_sqrt (xy_diff + yz_diff + zx_diff + of_int 6 * (xy2 + yz2 + zx2))).

(** [calculateWalker]: the two list comprehensions over the zipped
    component lists, the two unpackings, and the two signed equivalents,
    the mean one first; [np.sign([x, y, z]) * np.sqrt(2) / 2 * m] is
    evaluated left to right, elementwise on the three-element array
    [np.sign] returns.  [calculateWalker_locals] runs the body up to the
    [return] and gives the local variables; [calculateWalker] returns [sa]
    of them. *)
Definition calculateWalker_locals (self tensor : StressTensor T)
  : result (walker_locals T) :=
  let sm_comp := (λ '(cmp1, cmp2), (cmp1 + cmp2) / of_int 2)
                   <$> zip (stressComponents self) (stressComponents tensor) in
  let sa_comp := (λ '(cmp1, cmp2), (cmp1 - cmp2) / of_int 2)
                   <$> zip (stressComponents self) (stressComponents tensor) in
  '(s_mx, s_my, s_mz, s_mxy, s_myz, s_mzx) ← unpack6 sm_comp;
  '(s_ax, s_ay, s_az, s_axy, s_ayz, s_azx) ← unpack6 sa_comp;
  m ← _calcMises s_mx s_my s_mz s_mxy s_myz s_mzx;
  let sm := (λ s, s * np_sqrt (of_int 2) / of_int 2 * m)
              <$> (np_sign <$> [s_mx; s_my; s_mz]) in
  m ← _calcMises s_ax s_ay s_az s_axy s_ayz s_azx;
  let sa := (λ s, s * np_sqrt (of_int 2) / of_int 2 * m)
              <$> (np_sign <$> [s_ax; s_ay; s_az]) in
  Ok (mkWalkerLocals sm_comp sa_comp sm sa).

Definition calculateWalker (self tensor : StressTensor T) : result (list T) :=
  locals ← calculateWalker_locals self tensor;
  Ok (sa locals).

(** [M[i][j]] on a nested list. *)
Definition entry (M : list (list T)) (i j : nat) : option T :=
  row ← M !! i; row !! j.

End Views.

(** ** Eigenvalue accessors

    [np.linalg.eigvals] is numpy's, not this repository's: it is a parameter
    of the accessors.  It returns the one-dimensional array of eigenvalues of
    a square matrix, or raises [LinAlgError]. *)

Inductive value (T : Type) : Type :=
  | Number (x : T)
  | Sequence (xs : list T)
  | Matrix (m : list (list T)).
Arguments Number {T} x.
Arguments Sequence {T} xs.
Arguments Matrix {T} m.

Section Principals.
Context {T : Type} `{Scalar T} `{Pow2 T}.
Variable eigvals : list (list T) → result (list T).

Definition principals (self : StressTensor T) : result (list T) :=
  eigvals (stressTensor self).

(** The first [def firstPrincipal], source lines 46-48. *)
Definition firstPrincipal_def1 (self : StressTensor T) : result T :=
  xs ← principals self; py_max xs.

Definition secondPrincipal (self : StressTensor T) : result T :=
  xs ← principals self; py_index xs 1.

(** The second [def firstPrincipal], source lines 54-56. *)
Definition firstPrincipal_def2 (self : StressTensor T) : result T :=
  xs ← principals self; py_min xs.

(** [val, vect = np.linalg.eigvals(self.stressTensor); return vect]: the
    array of eigenvalues is unpacked into two names. *)
Definition eigenVector (self : StressTensor T) : result T :=
  r ← eigvals (stressTensor self);
  '(val, vect) ← unpack2 r;
  Ok vect.

(** The class body is executed top to bottom and each [def] binds its name
    in the class namespace, replacing an earlier binding of that name.
    These are the [@property] definitions in source order. *)
Definition property_defs : list (string * (StressTensor T → result (value T))) :=
  [ ("stressComponents", λ self, Ok (Sequence (stressComponents self)));
    ("stressTensor",     λ self, Ok (Matrix (stressTensor self)));
    ("principals",       λ self, Sequence <$> principals self);
    ("firstPrincipal",   λ self, Number <$> firstPrincipal_def1 self);
    ("secondPrincipal",  λ self, Number <$> secondPrincipal self);
    ("firstPrincipal",   λ self, Number <$> firstPrincipal_def2 self);
    ("eigenVector",      λ self, Number <$> eigenVector self);
    ("HuberStress",      λ self, Number <$> HuberStress self) ]%string.

Definition class_namespace : gmap string (StressTensor T → result (value T)) :=
  foldl (λ ns d, <[d.1 := d.2]> ns) ∅ property_defs.

(** [self.name] for a property: the getter bound to [name] is called. *)
Definition get_property (name : string) (self : StressTensor T) : result (value T) :=
  match class_namespace !! name with
  | Some fget => fget self
  | None => Raise (AttributeError name)
  end.

(** [self.firstPrincipal] as a caller sees it. *)
Definition firstPrincipal (self : StressTensor T) : result (value T) :=
  get_property "firstPrincipal" self.
End Principals.

(** ** Attributes by name *)

Inductive attr : Type := Sx | Sy | Sz | Sxy | Syz | Szx.

Definition attr_name (a : attr) : string :=
  match a with
  | Sx => "sx" | Sy => "sy" | Sz => "sz"
  | Sxy => "sxy" | Syz => "syz" | Szx => "szx"
  end.

Definition get_attr {T} (a : attr) (t : StressTensor T) : T :=
  match a with
  | Sx => sx t | Sy => sy t | Sz => sz t
  | Sxy => sxy t | Syz => syz t | Szx => szx t
  end.

Definition set_attr {T} (a : attr) (v : T) (t : StressTensor T) : StressTensor T :=
  match a with
  | Sx  => mkStressTensor v (sy t) (sz t) (sxy t) (syz t) (szx t)
  | Sy  => mkStressTensor (sx t) v (sz t) (sxy t) (syz t) (szx t)
  | Sz  => mkStressTensor (sx t) (sy t) v (sxy t) (syz t) (szx t)
  | Sxy => mkStressTensor (sx t) (sy t) (sz t) v (syz t) (szx t)
  | Syz => mkStressTensor (sx t) (sy t) (sz t) (sxy t) v (szx t)
  | Szx => mkStressTensor (sx t) (sy t) (sz t) (sxy t) (syz t) v
  end.

Definition attrs : list attr := [Sx; Sy; Sz; Sxy; Syz; Szx].

(** ** Objects on the heap: scaling in place and addition *)

Definition loc := positive.

Definition state (S A : Type) : Type := S → result (A * S).

#[global] Instance state_ret {S} : MRet (state S) := fun A a s => Ok (a, s).
#[global] Instance state_bind {S} : MBind (state S) := fun A B f m s =>
  match m s with
  | Ok (a, s') => f a s'
  | Raise e => Raise e
  end.

Section Heap.
Context {T : Type} `{Scalar T}.
Local Open Scope py_scope.
Local Abbreviation heap := (gmap loc (StressTensor T)).

(** [obj.a] *)
Definition getattr (obj : loc) (a : attr) : state heap T := λ h,
  match h !! obj with
  | Some t => Ok (get_attr a t, h)
  | None => Raise InvalidReference
  end.

(** [obj.a = v] *)
Definition setattr (obj : loc) (a : attr) (v : T) : state heap unit := λ h,
  match h !! obj with
  | Some t => Ok ((), <[obj := set_attr a v t]> h)
  | None => Raise InvalidReference
  end.

(** [StressTensor(...)]: a new object at an address not in use. *)
Definition new (t : StressTensor T) : state heap loc := λ h,
  let l := fresh (dom h) in Ok (l, <[l := t]> h).

(** An omitted factor takes the default 1. *)
Definition applyComponentKt (self : loc) (KTx KTy KTz KTxy KTyz KTZX : option T)
  : state heap unit :=
  let KTx := default (of_int 1) KTx in
  let KTy := default (of_int 1) KTy in
  let KTz := default (of_int 1) KTz in
  let KTxy := default (of_int 1) KTxy in
  let KTyz := default (of_int 1) KTyz in
  let KTZX := default (of_int 1) KTZX in
  v ← getattr self Sx;  setattr self Sx  (v * KTx);;
  v ← getattr self Sy;  setattr self Sy  (v * KTy);;
  v ← getattr self Sz;  setattr self Sz  (v * KTz);;
  v ← getattr self Sxy; setattr self Sxy (v * KTxy);;
  v ← getattr self Syz; setattr self Syz (v * KTyz);;
  v ← getattr self Szx; setattr self Szx (v * KTZX).

Definition __add__ (self cls : loc) : state heap loc :=
  a ← getattr self Sx;  b ← getattr cls Sx;  let new_sx := a + b in
  a ← getattr self Sy;  b ← getattr cls Sy;  let new_sy := a + b in
  a ← getattr self Sz;  b ← getattr cls Sz;  let new_sz := a + b in
  a ← getattr self Sxy; b ← getattr cls Sxy; let new_sxy := a + b in
  a ← getattr self Syz; b ← getattr cls Syz; let new_syz := a + b in
  a ← getattr self Szx; b ← getattr cls Szx; let new_szx := a + b in
  new (__init__ (Some new_sx) (Some new_sy) (Some new_sz)
                    (Some new_sxy) (Some new_syz) (Some new_szx)).
End Heap.

(** ** Equality against an arbitrary object

    [__eq__] receives any Python object.  What it uses of it is attribute
    access, so the operand is its attribute dictionary. *)

Section Equality.
Context {T : Type} `{Scalar T}.
Local Open Scope py_scope.

(** [value.name] *)
Definition getattr_obj (value : gmap string T) (name : string) : result T :=
  match value !! name with
  | Some v => Ok v
  | None => Raise (AttributeError name)
  end.

(** [a and b]: [b] is evaluated only when [a] is true. *)
Definition py_and (a b : result bool) : result bool :=
  x ← a; if (x : bool) then b else Ok false.

(** [self.a == value.a] *)
Definition same (self : StressTensor T) (value : gmap string T) (a : attr) : result bool :=
  v ← getattr_obj value (attr_name a); Ok (get_attr a self == v).

Definition __eq__ (self : StressTensor T) (value : gmap string T) : result bool :=
  c ← py_and (same self value Sx)
      (py_and (same self value Sy)
      (py_and (same self value Sz)
      (py_and (same self value Sxy)
      (py_and (same self value Syz)
              (same self value Szx)))));
  if (c : bool) then Ok true else Ok false.

(** A tensor seen as an operand: its six attributes. *)
Definition as_object (t : StressTensor T) : gmap string T :=
  list_to_map ((λ a, (attr_name a, get_attr a t)) <$> attrs).
End Equality.

(** ** The properties as the specification words them

    These definitions follow the specification, not the source; the theorems
    below compare them with the definitions above. *)

Section Specification.
Context {T : Type} `{Scalar T} `{Pow2 T}.
Local Open Scope py_scope.





(** The six numbers squared in an equivalent stress: the differences of the
    normals and the shears. *)
Definition squared_of (x y z xy yz zx : T) : list T :=
  [x - y; y - z; z - x; xy; yz; zx].

Definition squared_by_HuberStress (t : StressTensor T) : list T :=
  squared_of (sx t) (sy t) (sz t) (sxy t) (syz t) (szx t).


(** [sx == sy == sz] and [sxy == syz == szx == 0], with Python's [==]. *)
Definition isotropic (t : StressTensor T) : Prop :=
  (sx t == sy t) = true ∧ (sy t == sz t) = true
  ∧ (sxy t == of_int 0) = true ∧ (syz t == of_int 0) = true
  ∧ (szx t == of_int 0) = true.

Definition tensor_sum (ta tb : StressTensor T) : StressTensor T :=
  mkStressTensor (sx ta + sx tb) (sy ta + sy tb) (sz ta + sz tb)
                 (sxy ta + sxy tb) (syz ta + syz tb) (szx ta + szx tb).

(** Identity scaling, with the factors omitted or given as 1, and scaling of
    [sx] alone. *)
Definition scaling_as_specified : Prop :=
  ∀ (h : gmap loc (StressTensor T)) (self : loc) (t : StressTensor T),
    h !! self = Some t →
    applyComponentKt self None None None None None None h = Ok ((), h)
    ∧ applyComponentKt self (Some (of_int 1)) (Some (of_int 1)) (Some (of_int 1))
        (Some (of_int 1)) (Some (of_int 1)) (Some (of_int 1)) h = Ok ((), h)
    ∧ ∀ k : T,
        applyComponentKt self (Some k) None None None None None h
        = Ok ((), <[self := mkStressTensor (k * sx t) (sy t) (sz t)
                                           (sxy t) (syz t) (szx t)]> h).

(** [a + b]: a new object holding the sums; every object that existed keeps
    its components. *)
Definition add_as_specified : Prop :=
  ∀ (h : gmap loc (StressTensor T)) (a b : loc) (ta tb : StressTensor T),
    h !! a = Some ta → h !! b = Some tb →
    ∃ (r : loc) (h' : gmap loc (StressTensor T)),
      __add__ a b h = Ok (r, h')
      ∧ h !! r = None
      ∧ h' !! r = Some (tensor_sum ta tb)
      ∧ h' !! a = Some ta
      ∧ h' !! b = Some tb
      ∧ ∀ l, l ≠ r → h' !! l = h !! l.

(** The comparisons the [and] chain of [__eq__] has made when it has gone
    through the attributes [pre]. *)
Definition all_same (self : StressTensor T) (value : gmap string T) (pre : list attr) : bool :=
  forallb (λ a, match value !! attr_name a with
                | Some v => get_attr a self == v
                | None => false
                end) pre.

(** The [and] chain over a list of attributes. *)
Fixpoint and_chain (self : StressTensor T) (value : gmap string T) (l : list attr)
  : result bool :=
  match l with
  | [] => Ok true
  | a :: l' => py_and (same self value a) (and_chain self value l')
  end.
End Specification.

(** [m] is what [self.firstPrincipal] returns: the least of the principals
    [xs], below what the first definition would have returned, and equal to
    it only when all principals coincide. *)
Definition minimum_of_principals (eigvals : list (list R) → result (list R))
    (self : StressTensor R) (xs : list R) : Prop :=
  ∃ m : R,
    firstPrincipal eigvals self = Ok (Number m)
    ∧ m ∈ xs
    ∧ (∀ x, x ∈ xs → (m <= x)%R)
    ∧ ∃ M : R,
        firstPrincipal_def1 eigvals self = Ok M
        ∧ (m <= M)%R
        ∧ (m = M → ∀ x, x ∈ xs → x = m).

(** A tensor of binary64 numbers that are real numbers: no infinity, no NaN. *)
Definition finite_tensor (t : StressTensor float) : Prop :=
  Forall (λ x, is_finite x = true) (stressComponents t).

(** The tensor with the sign of every component reversed. *)
Definition reversed (t : StressTensor float) : StressTensor float :=
  (mkStressTensor (- sx t) (- sy t) (- sz t) (- sxy t) (- syz t) (- szx t))%float.

(** A number whose square neither overflows nor underflows: a zero, or of
    absolute value between [2^-500] and [2^500]. *)
Definition square_in_range (d : float) : bool :=
  PrimFloat.eqb d 0
  || (PrimFloat.leb 0x1p-500 (PrimFloat.abs d) && PrimFloat.leb (PrimFloat.abs d) 0x1p500).

(** ** Tensors used to state how the operations compose *)

Section Composition.
Context {T : Type} `{Scalar T}.
Local Open Scope py_scope.

(** [a + b] and [b + a] give the same new object in the same heap. *)
Definition add_commutes : Prop :=
  ∀ (h : gmap loc (StressTensor T)) (a b : loc),
    is_Some (h !! a) → is_Some (h !! b) →
    __add__ a b h = __add__ b a h.
End Composition.

(** ** Binary64 numbers by sign and size

    The primitive operations are specified on [spec_float], a sign, a
    mantissa and an exponent.  These predicates are what the proofs track
    through the additions, products and square root of the equivalent
    stresses. *)

(** Of sign [s], and not NaN. *)
Definition sign_of (X : spec_float) (s : bool) : Prop :=
  match X with
  | S754_zero s' | S754_infinity s' | S754_finite s' _ _ => s' = s
  | S754_nan => False
  end.

Definition NotNaN (X : spec_float) : Prop := X ≠ S754_nan.

(** Not negative and not NaN; both zeros are. *)
Definition NN (X : spec_float) : Prop :=
  match X with
  | S754_zero _ | S754_infinity false | S754_finite false _ _ => True
  | _ => False
  end.

(** Not a zero and not NaN. *)
Definition NZ (X : spec_float) : Prop :=
  match X with
  | S754_infinity _ | S754_finite _ _ _ => True
  | _ => False
  end.

(** A zero or a number, of either sign. *)
Definition FIN (X : spec_float) : Prop :=
  match X with
  | S754_zero _ | S754_finite _ _ _ => True
  | _ => False
  end.

(** At least [2^E]: [+inf], or positive with its leading bit at [E] or above. *)
Definition BIG (E : Z) (X : spec_float) : Prop :=
  match X with
  | S754_infinity false => True
  | S754_finite false m e => (E <= Z.log2 (Z.pos m) + e)%Z
  | _ => False
  end.

(** * Facts about the two arithmetics *)

(** ** Exact reals *)

Lemma min_from_R (cur : R) (xs : list R) :
  min_from cur xs ∈ cur :: xs ∧ ∀ x, x ∈ cur :: xs → (min_from cur xs <= x)%R.
Proof.
  revert cur. induction xs as [|y ys IH]; intros cur; cbn.
  - split; [left|]. intros x Hx. apply list_elem_of_singleton in Hx as ->. lra.
  - destruct (Rlt_dec y cur) as [L|L];
      [destruct (IH y) as [Hin Hle] | destruct (IH cur) as [Hin Hle]].
    all: pose proof (Hle _ (list_elem_of_here _ _)) as Hm.
    all: split;
      [ apply elem_of_cons in Hin as [Hin|Hin];
        [rewrite Hin; first [left | right; left] | do 2 right; exact Hin]
      | intros x Hx; apply elem_of_cons in Hx as [Hx|Hx];
        [|apply elem_of_cons in Hx as [Hx|Hx]];
        [subst x; lra | subst x; lra | apply Hle; by right] ].
Qed.

Lemma max_from_R (cur : R) (xs : list R) :
  max_from cur xs ∈ cur :: xs ∧ ∀ x, x ∈ cur :: xs → (x <= max_from cur xs)%R.
Proof.
  revert cur. induction xs as [|y ys IH]; intros cur; cbn.
  - split; [left|]. intros x Hx. apply list_elem_of_singleton in Hx as ->. lra.
  - destruct (Rlt_dec cur y) as [L|L];
      [destruct (IH y) as [Hin Hle] | destruct (IH cur) as [Hin Hle]].
    all: pose proof (Hle _ (list_elem_of_here _ _)) as Hm.
    all: split;
      [ apply elem_of_cons in Hin as [Hin|Hin];
        [rewrite Hin; first [left | right; left] | do 2 right; exact Hin]
      | intros x Hx; apply elem_of_cons in Hx as [Hx|Hx];
        [|apply elem_of_cons in Hx as [Hx|Hx]];
        [subst x; lra | subst x; lra | apply Hle; by right] ].
Qed.

(** ** Binary64: rounding, by sign and size

    [binary_round_aux] shifts the mantissa right until it fits and rounds to
    nearest even.  The shift keeps the position of the leading bit as long
    as that position is at or above the least exponent, and rounding does not
    lower it. *)

Section Rounding.
Local Open Scope Z_scope.

Lemma digits2_log2 (m : positive) : Z.pos (digits2_pos m) = Z.log2 (Z.pos m) + 1.
Proof.
  induction m as [m IH|m IH|]; cbn [digits2_pos]; [| |reflexivity].
  - rewrite Pos2Z.inj_succ, IH.
    change (Z.pos m~1) with (2 * Z.pos m + 1). rewrite Z.log2_succ_double by lia. lia.
  - rewrite Pos2Z.inj_succ, IH.
    change (Z.pos m~0) with (2 * Z.pos m). rewrite Z.log2_double by lia. lia.
Qed.

Lemma shr_1_m (r : shr_record) : 0 <= shr_m r → shr_m (shr_1 r) = shr_m r / 2.
Proof.
  destruct r as [m b s]. destruct m as [|p|p]; cbn; intros H; [reflexivity| |lia].
  destruct p as [p|p|]; cbn.
  - change (Z.pos p~1) with (2 * Z.pos p + 1).
    apply Z.div_unique with 1; lia.
  - change (Z.pos p~0) with (2 * Z.pos p).
    apply Z.div_unique with 0; lia.
  - reflexivity.
Qed.

Lemma iter_shr_1_m (n : positive) (r : shr_record) :
  0 <= shr_m r → shr_m (SpecFloat.iter_pos shr_1 n r) = shr_m r / 2 ^ Z.pos n.
Proof.
  revert r. induction n as [n IH|n IH|]; intros r H; cbn [SpecFloat.iter_pos].
  - assert (H1 : 0 <= shr_m (shr_1 r)) by (rewrite shr_1_m by done; apply Z.div_pos; lia).
    assert (H2 : 0 <= shr_m (SpecFloat.iter_pos shr_1 n (shr_1 r)))
      by (rewrite IH by done; apply Z.div_pos; lia).
    rewrite IH, IH, shr_1_m by done.
    rewrite !Z.div_div by lia. f_equal.
    replace (Z.pos n~1) with (Z.pos n + Z.pos n + 1) by lia.
    rewrite !Z.pow_add_r, Z.pow_1_r by lia. ring.
  - assert (H2 : 0 <= shr_m (SpecFloat.iter_pos shr_1 n r))
      by (rewrite IH by done; apply Z.div_pos; lia).
    rewrite IH, IH by done.
    rewrite !Z.div_div by lia. f_equal.
    replace (Z.pos n~0) with (Z.pos n + Z.pos n) by lia.
    rewrite !Z.pow_add_r by lia. ring.
  - rewrite shr_1_m by done. reflexivity.
Qed.

(** [shr] divides the mantissa by [2^n] and adds [n] to the exponent. *)
Lemma shr_m_spec (r : shr_record) (e n : Z) :
  0 <= shr_m r →
  shr_m (shr r e n).1 = shr_m r / 2 ^ Z.max n 0 ∧ (shr r e n).2 = e + Z.max n 0.
Proof.
  intros H. destruct n as [|p|p]; cbn [shr fst snd].
  - rewrite Z.div_1_r. lia.
  - rewrite iter_shr_1_m by done. split; [f_equal; f_equal; lia | lia].
  - change (Z.max (Z.neg p) 0) with 0. rewrite Z.div_1_r. lia.
Qed.

Lemma shr_record_of_loc_m (m : Z) (l : location) : shr_m (shr_record_of_loc m l) = m.
Proof. by destruct l as [|[]]. Qed.

Lemma Zdigits2_log2 (m : Z) : 0 < m → Zdigits2 m = Z.log2 m + 1.
Proof. destruct m as [|p|p]; [lia| |lia]. intros _. cbn. apply digits2_log2. Qed.

Lemma shr_fexp_nonneg (m e : Z) (l : location) :
  0 <= m → 0 <= shr_m (shr_fexp prec emax m e l).1.
Proof.
  intros H. unfold shr_fexp.
  assert (H0 : 0 <= shr_m (shr_record_of_loc m l)) by (rewrite shr_record_of_loc_m; lia).
  destruct (shr_m_spec (shr_record_of_loc m l) e
              (fexp prec emax (Zdigits2 m + e) - e) H0) as [-> _].
  rewrite shr_record_of_loc_m. apply Z.div_pos; lia.
Qed.

(** Above the smallest subnormal, shifting to the format's exponent keeps
    the mantissa positive and the magnitude [log2 m + e]. *)
Lemma shr_fexp_mag (m e : Z) (l : location) :
  0 < m → -1074 <= Z.log2 m + e →
  0 < shr_m (shr_fexp prec emax m e l).1
  ∧ Z.log2 (shr_m (shr_fexp prec emax m e l).1) + (shr_fexp prec emax m e l).2
    = Z.log2 m + e.
Proof.
  intros Hm HL. unfold shr_fexp.
  assert (H0 : 0 <= shr_m (shr_record_of_loc m l)) by (rewrite shr_record_of_loc_m; lia).
  destruct (shr_m_spec (shr_record_of_loc m l) e
              (fexp prec emax (Zdigits2 m + e) - e) H0) as [-> ->].
  rewrite shr_record_of_loc_m.
  rewrite Zdigits2_log2 by done.
  pose proof (Z.log2_nonneg m) as L0.
  set (N := Z.max (fexp prec emax (Z.log2 m + 1 + e) - e) 0).
  assert (HN : 0 <= N <= Z.log2 m).
  { subst N. unfold fexp, SpecFloat.emin, prec, emax. lia. }
  rewrite <- Z.shiftr_div_pow2 by lia.
  assert (Hs : 0 < Z.shiftr m N).
  { rewrite Z.shiftr_div_pow2 by lia.
    apply Z.div_str_pos. split; [lia|].
    apply Z.le_trans with (2 ^ Z.log2 m); [apply Z.pow_le_mono_r; lia|].
    apply Z.log2_spec. lia. }
  split; [done|]. rewrite Z.log2_shiftr by lia. lia.
Qed.

Lemma round_nearest_even_bounds (m : Z) (l : location) :
  m <= round_nearest_even m l <= m + 1.
Proof. destruct l as [|[]]; cbn; try destruct (Z.even m); lia. Qed.

Lemma binary_round_aux_sign (s : bool) (m e : Z) (l : location) :
  0 <= m → sign_of (binary_round_aux prec emax s m e l) s.
Proof.
  intros H. unfold binary_round_aux.
  pose proof (shr_fexp_nonneg m e l H) as H1.
  destruct (shr_fexp prec emax m e l) as [r1 e1]. cbn [fst] in H1.
  pose proof (round_nearest_even_bounds (shr_m r1) (loc_of_shr_record r1)) as B.
  pose proof (shr_fexp_nonneg (round_nearest_even (shr_m r1) (loc_of_shr_record r1))
                e1 loc_Exact ltac:(lia)) as H2.
  destruct (shr_fexp prec emax _ e1 loc_Exact) as [r2 e2]. cbn [fst] in H2.
  destruct (shr_m r2) eqn:Em; [done| |lia].
  by destruct (_ <=? _).
Qed.

Lemma binary_round_aux_mag (m e : Z) (l : location) (E : Z) :
  0 < m → -1074 <= E → E <= Z.log2 m + e →
  BIG E (binary_round_aux prec emax false m e l).
Proof.
  intros Hm HE HL. unfold binary_round_aux.
  destruct (shr_fexp_mag m e l Hm ltac:(lia)) as [P1 M1].
  destruct (shr_fexp prec emax m e l) as [r1 e1]. cbn [fst snd] in P1, M1.
  pose proof (round_nearest_even_bounds (shr_m r1) (loc_of_shr_record r1)) as B.
  set (m1 := round_nearest_even (shr_m r1) (loc_of_shr_record r1)) in *.
  assert (L1 : Z.log2 (shr_m r1) <= Z.log2 m1) by (apply Z.log2_le_mono; lia).
  destruct (shr_fexp_mag m1 e1 loc_Exact ltac:(lia) ltac:(lia)) as [P2 M2].
  destruct (shr_fexp prec emax m1 e1 loc_Exact) as [r2 e2]. cbn [fst snd] in P2, M2.
  destruct (shr_m r2) as [|m2|m2] eqn:Em; [lia| |lia].
  destruct (_ <=? _); cbn [BIG]; [lia|done].
Qed.

Lemma iter_xO_log2 (d m : positive) :
  Z.log2 (Z.pos (Pos.iter xO m d)) = Z.log2 (Z.pos m) + Z.pos d.
Proof.
  induction d as [|d IH] using Pos.peano_ind.
  - cbn [Pos.iter]. change (Z.pos m~0) with (2 * Z.pos m).
    rewrite Z.log2_double by lia. lia.
  - rewrite Pos.iter_succ. change (Z.pos (Pos.iter xO m d)~0) with (2 * Z.pos (Pos.iter xO m d)).
    rewrite Z.log2_double, IH by lia. lia.
Qed.

Lemma shl_align_mag (m : positive) (e x : Z) :
  Z.log2 (Z.pos (shl_align m e x).1) + (shl_align m e x).2 = Z.log2 (Z.pos m) + e.
Proof.
  unfold shl_align. destruct (x - e) as [|d|d] eqn:D; cbn [fst snd]; [done..|].
  rewrite iter_xO_log2. lia.
Qed.

Lemma shl_align_le (m : positive) (e x : Z) :
  x <= e → (shl_align m e x).2 = x.
Proof.
  intros H. unfold shl_align. destruct (x - e) as [|d|d] eqn:D; cbn [snd]; lia.
Qed.

Lemma binary_round_sign (s : bool) (m : positive) (e : Z) :
  sign_of (binary_round prec emax s m e) s.
Proof.
  unfold binary_round. destruct (shl_align _ _ _) as [mz ez].
  apply binary_round_aux_sign. lia.
Qed.

Lemma binary_round_mag (m : positive) (e E : Z) :
  -1074 <= E → E <= Z.log2 (Z.pos m) + e →
  BIG E (binary_round prec emax false m e).
Proof.
  intros HE HL. unfold binary_round.
  pose proof (shl_align_mag m e (fexp prec emax (Z.pos (digits2_pos m) + e))) as M.
  destruct (shl_align _ _ _) as [mz ez]. cbn [fst snd] in M.
  apply binary_round_aux_mag; lia.
Qed.

Lemma sign_false_NN X : sign_of X false → NN X.
Proof. by destruct X as [[]|[]| |[] m e]. Qed.

Lemma BIG_NN E X : BIG E X → NN X.
Proof. by destruct X as [[]|[]| |[] m e]. Qed.

Lemma BIG_mono E E' X : E' <= E → BIG E X → BIG E' X.
Proof. destruct X as [[]|[]| |[] m e]; cbn; try done. lia. Qed.

Lemma SFadd_NN X Y : NN X → NN Y → NN (SF64add X Y).
Proof.
  destruct X as [[]|[]| |[] mx ex], Y as [[]|[]| |[] my ey]; cbn; try done.
  intros _ _. apply sign_false_NN, binary_round_sign.
Qed.

Lemma SFadd_BIG_l E X Y : -1074 <= E → BIG E X → NN Y → BIG E (SF64add X Y).
Proof.
  intros HE.
  destruct X as [[]|[]| |[] mx ex], Y as [[]|[]| |[] my ey]; cbn [BIG NN]; try done.
  intros HX _. unfold SF64add, SFadd. cbv zeta.
  pose proof (shl_align_mag mx ex (Z.min ex ey)) as Mx.
  pose proof (shl_align_le mx ex (Z.min ex ey) ltac:(lia)) as Ex.
  destruct (shl_align mx ex _) as [a ea]. destruct (shl_align my ey _) as [b eb].
  cbn [fst snd cond_Zopp] in *. subst ea.
  change (Z.pos a + Z.pos b) with (Z.pos (a + b)). cbn [binary_normalize].
  apply binary_round_mag; [done|].
  assert (Z.log2 (Z.pos a) <= Z.log2 (Z.pos (a + b))) by (apply Z.log2_le_mono; lia).
  lia.
Qed.

Lemma SFadd_comm X Y : SF64add X Y = SF64add Y X.
Proof.
  unfold SF64add, SFadd.
  destruct X as [[]|[]| |s m e], Y as [[]|[]| |s' m' e']; try reflexivity.
  cbv zeta. by rewrite (Z.min_comm e e'), Z.add_comm.
Qed.

Lemma SFadd_BIG_r E X Y : -1074 <= E → NN X → BIG E Y → BIG E (SF64add X Y).
Proof. intros. rewrite SFadd_comm. by apply SFadd_BIG_l. Qed.

(** A positive finite constant times a non-negative number. *)
Lemma SFmul_const_NN m e Y : NN Y → NN (SF64mul (S754_finite false m e) Y).
Proof.
  destruct Y as [[]|[]| |[] my ey]; cbn; try done.
  intros _. apply sign_false_NN, binary_round_aux_sign. lia.
Qed.

Lemma SFmul_BIG E1 E2 X Y :
  -1074 <= E1 + E2 → BIG E1 X → BIG E2 Y → BIG (E1 + E2) (SF64mul X Y).
Proof.
  intros HE.
  destruct X as [[]|[]| |[] mx ex], Y as [[]|[]| |[] my ey]; cbn [BIG]; try done.
  intros HX HY. unfold SF64mul, SFmul. cbn [xorb].
  apply binary_round_aux_mag; [lia|lia|].
  rewrite Pos2Z.inj_mul.
  pose proof (Z.log2_mul_below (Z.pos mx) (Z.pos my) ltac:(lia) ltac:(lia)). lia.
Qed.

Lemma sign_of_NotNaN X s : sign_of X s → NotNaN X.
Proof. by destruct X. Qed.

Lemma binary_normalize_NotNaN m e sz : NotNaN (binary_normalize prec emax m e sz).
Proof.
  destruct m; cbn [binary_normalize]; [done|..]; eapply sign_of_NotNaN, binary_round_sign.
Qed.

(** The difference of two real-valued numbers is not NaN. *)
Lemma SFsub_NotNaN X Y :
  (∀ s, X ≠ S754_infinity s) → (∀ s, Y ≠ S754_infinity s) → NotNaN X → NotNaN Y →
  NotNaN (SF64sub X Y).
Proof.
  intros HX HY NX NY.
  destruct X as [sx|sx| |sx mx ex]; [|by destruct (HX sx)|done|];
    (destruct Y as [sy|sy| |sy my ey]; [|by destruct (HY sy)|done|]).
  - by destruct sx, sy.
  - done.
  - done.
  - unfold SF64sub, SFsub. cbv zeta. apply binary_normalize_NotNaN.
Qed.

Lemma NN_NotNaN X : NN X → NotNaN X.
Proof. by destruct X as [[]|[]| |[] m e]. Qed.

Lemma NN_SFleb X : NN X ↔ SFleb (S754_zero false) X = true.
Proof. by destruct X as [[]|[]| |[] m e]. Qed.

Lemma BIG_SFeqb E X : BIG E X → SFeqb X (S754_zero false) = false.
Proof. by destruct X as [[]|[]| |[] m e]. Qed.

Lemma valid_finite s m e :
  valid_binary (S754_finite s m e) = true →
  -1074 <= e ∧ (-1074 < e → Z.log2 (Z.pos m) = 52).
Proof.
  unfold SpecFloat.valid_binary, bounded, canonical_mantissa. intros V.
  apply andb_prop in V as [V _]. apply Z.eqb_eq in V.
  rewrite digits2_log2 in V. unfold fexp, SpecFloat.emin, prec, emax in V. lia.
Qed.

(** A number not below the normal number [2^52 * 2^ec] has at least its magnitude. *)
Lemma SFleb_BIG ec X :
  -1074 <= ec →
  SFleb (S754_finite false 4503599627370496 ec) X = true →
  valid_binary X = true →
  BIG (52 + ec) X.
Proof.
  intros Hec L V. destruct X as [[]|[]| |[] m e]; try discriminate L; [done|].
  cbn [BIG]. apply valid_finite in V as [V1 V2].
  unfold SFleb, SFcompare in L.
  destruct (Z.compare_spec ec e) as [->|Hlt|Hgt]; [| |discriminate L].
  - change (PosDef.Pos.compare_cont Eq 4503599627370496 m)
      with (Pos.compare 4503599627370496 m) in L.
    assert (4503599627370496 <= m)%positive as Hm.
    { destruct (Pos.compare_spec 4503599627370496 m); try discriminate L; lia. }
    assert (Z.log2 (2 ^ 52) <= Z.log2 (Z.pos m)) by (apply Z.log2_le_mono; lia).
    rewrite Z.log2_pow2 in * by lia. lia.
  - rewrite V2 by lia. lia.
Qed.

Lemma SFsqrt_NN X : NN X → NN (SF64sqrt X).
Proof.
  destruct X as [[]|[]| |[] m e]; unfold SF64sqrt; cbn [NN SFsqrt]; try done.
  intros _. destruct (SFsqrt_core_binary _ _ _ _) as [[mz ez] lz] eqn:C.
  apply sign_false_NN. 
  unfold SFsqrt_core_binary in C. cbv zeta in C.
  destruct (Z.sqrtrem _) as [q r] eqn:Q in C. injection C as <- <- <-.
  apply binary_round_aux_sign.
  match type of Q with Z.sqrtrem ?n = _ => 
    assert (N : 0 <= n) by (destruct (e - 2 * _); [lia| |lia]; rewrite Z.shiftl_mul_pow2 by lia; lia);
    pose proof (Z.sqrtrem_spec n N) as S end.
  rewrite Q in S. nia.
Qed.

Lemma SFsqrt_BIG E X :
  BIG E X → valid_binary X = true → BIG (-1074) (SF64sqrt X).
Proof.
  destruct X as [[]|[]| |[] m e]; unfold SF64sqrt; cbn [BIG SFsqrt]; try done.
  intros _ V. apply valid_finite in V as [V _].
  destruct (SFsqrt_core_binary _ _ _ _) as [[mz ez] lz] eqn:C.
  unfold SFsqrt_core_binary in C. cbv zeta in C.
  destruct (Z.sqrtrem _) as [q r] eqn:Q in C. injection C as <- <- <-.
  set (e' := Z.min _ _) in *.
  assert (He' : -1074 <= e' ∧ 2 * e' <= e).
  { subst e'. rewrite !Z.div2_div. unfold fexp, SpecFloat.emin, prec, emax.
    pose proof (Z.div_le_lower_bound e 2 (-1074) ltac:(lia) ltac:(lia)).
    pose proof (Z.mul_div_le e 2 ltac:(lia)). lia. }
  match type of Q with Z.sqrtrem ?n = _ =>
    assert (N : 0 < n) by (destruct (e - 2 * e') eqn:D; [lia| |lia]; rewrite Z.shiftl_mul_pow2 by lia; lia);
    pose proof (Z.sqrtrem_spec n ltac:(lia)) as S end.
  rewrite Q in S.
  assert (0 < q) by nia.
  apply binary_round_aux_mag; [lia|lia|].
  pose proof (Z.log2_nonneg q). lia.
Qed.
End Rounding.

(** ** Binary64: the primitive operations *)


Lemma float_is_finite_spec (x : float) :
  is_finite x = true →
  (∃ s, Prim2SF x = S754_zero s) ∨ (∃ s m e, Prim2SF x = S754_finite s m e).
Proof.
  unfold is_finite, is_nan, is_infinity.
  rewrite !FloatAxioms.eqb_spec, abs_spec.
  destruct (Prim2SF x) as [s|[]| |s m e]; try discriminate; eauto.
Qed.

Lemma SFeqb_finite s m e s' m' e' :
  SFeqb (S754_finite s m e) (S754_finite s' m' e') = true → s = s' ∧ m = m' ∧ e = e'.
Proof.
  unfold SFeqb, SFcompare. intros E.
  destruct s, s'; try discriminate E;
    destruct (Z.compare_spec e e'); try discriminate E;
    change (PosDef.Pos.compare_cont Eq m m') with (Pos.compare m m') in E;
    destruct (Pos.compare_spec m m'); try discriminate E; by subst.
Qed.

Lemma SFeqb_finite_refl s m e : SFeqb (S754_finite s m e) (S754_finite s m e) = true.
Proof.
  unfold SFeqb, SFcompare. rewrite Z.compare_refl.
  change (PosDef.Pos.compare_cont Eq m m) with (Pos.compare m m).
  rewrite Pos.compare_refl. by destruct s.
Qed.

Lemma SFsub_finite_diag s m e :
  SF64sub (S754_finite s m e) (S754_finite s m e) = S754_zero false.
Proof. unfold SF64sub, SFsub. cbv zeta. by rewrite Z.sub_diag. Qed.


(** [x == 0] holds of the two zeros only. *)
Lemma float_eqb_zero (x : float) :
  PrimFloat.eqb x 0 = true → x = 0%float ∨ x = (-0)%float.
Proof.
  rewrite FloatAxioms.eqb_spec. change (Prim2SF 0) with (S754_zero false).
  intros E. destruct (Prim2SF x) as [[]|[]| |[] m e] eqn:P; try discriminate E.
  - right. by apply Prim2SF_inj.
  - left. by apply Prim2SF_inj.
Qed.

Lemma float_eqb_cycle (x y z : float) :
  PrimFloat.eqb x y = true → PrimFloat.eqb y z = true → PrimFloat.eqb z x = true.
Proof.
  rewrite !FloatAxioms.eqb_spec. intros E1 E2.
  destruct (Prim2SF x) as [[]|[]| |[] mx ex], (Prim2SF y) as [[]|[]| |[] my ey];
    try discriminate E1;
    destruct (Prim2SF z) as [[]|[]| |[] mz ez]; try discriminate E2; try reflexivity.
  all: apply SFeqb_finite in E1 as (? & -> & ->); apply SFeqb_finite in E2 as (? & -> & ->).
  all: try discriminate.
  all: apply SFeqb_finite_refl.
Qed.

Section Sizes.
Local Open Scope Z_scope.

Lemma valid_finite_upper s m e :
  valid_binary (S754_finite s m e) = true → Z.log2 (Z.pos m) <= 52 ∧ e <= 971.
Proof.
  unfold SpecFloat.valid_binary, bounded, canonical_mantissa. intros V.
  apply andb_prop in V as [V1 V2]. apply Z.eqb_eq in V1. apply Z.leb_le in V2.
  rewrite digits2_log2 in V1. unfold fexp, SpecFloat.emin, prec, emax in *. lia.
Qed.

(** Nothing representable is as large as [2^1024]. *)
Lemma BIG_overflow X :
  BIG 1024 X → valid_binary X = true → X = S754_infinity false.
Proof.
  destruct X as [[]|[]| |[] m e]; cbn [BIG]; try done.
  intros B V. apply valid_finite_upper in V. lia.
Qed.

Lemma BIG_SFleb E ec X :
  BIG E X → valid_binary X = true → 52 + ec <= E →
  SFleb (S754_finite false 4503599627370496 ec) X = true.
Proof.
  destruct X as [[]|[]| |[] m e]; cbn [BIG]; try done.
  intros B V HE. apply valid_finite_upper in V as [V _].
  unfold SFleb, SFcompare.
  destruct (Z.compare_spec ec e) as [->|Hlt|Hgt]; [|done|lia].
  change (PosDef.Pos.compare_cont Eq 4503599627370496 m)
    with (Pos.compare 4503599627370496 m).
  destruct (Pos.compare_spec 4503599627370496 m) as [?|?|Hm]; [done..|].
  assert (Z.log2 (Z.pos m) < 52); [|clear Hm; lia].
  apply Z.log2_lt_pow2; [done|]. change (2 ^ 52) with 4503599627370496.
  by apply Pos2Z.pos_lt_pos.
Qed.

Lemma BIG_not_SFleb E ec X :
  BIG E X → valid_binary X = true → 52 + ec < E →
  SFleb X (S754_finite false 4503599627370496 ec) = false.
Proof.
  destruct X as [[]|[]| |[] m e]; cbn [BIG]; try done.
  intros B V HE. apply valid_finite_upper in V as [V _].
  unfold SFleb, SFcompare.
  destruct (Z.compare_spec e ec) as [->|Hlt|Hgt]; [lia|lia|done].
Qed.

Lemma SFltb_SFleb m e mc ec :
  SFltb (S754_finite false m e) (S754_finite false mc ec) = false →
  SFleb (S754_finite false mc ec) (S754_finite false m e) = true.
Proof.
  unfold SFltb, SFleb, SFcompare. rewrite (Z.compare_antisym ec e).
  change (PosDef.Pos.compare_cont Eq m mc) with (Pos.compare m mc).
  change (PosDef.Pos.compare_cont Eq mc m) with (Pos.compare mc m).
  rewrite (Pos.compare_antisym m mc).
  by destruct (ec ?= e), (m ?= mc)%positive.
Qed.
End Sizes.

Lemma SFeqb_refl X : NotNaN X → SFeqb X X = true.
Proof.
  destruct X as [[]|[]| |s m e]; try done. intros _. apply SFeqb_finite_refl.
Qed.

Lemma SFeqb_cases X Y :
  SFeqb X Y = true → X = Y ∨ ∃ s s', X = S754_zero s ∧ Y = S754_zero s'.
Proof.
  intros E.
  destruct X as [sx|[]| |sx mx ex], Y as [sy|[]| |sy my ey]; try discriminate E; eauto.
  all: try (destruct sx; discriminate E); try (destruct sy; discriminate E).
  apply SFeqb_finite in E as (-> & -> & ->). by left.
Qed.

Lemma float_not_nan (x : float) : is_nan x = false ↔ NotNaN (Prim2SF x).
Proof.
  unfold is_nan. rewrite FloatAxioms.eqb_spec. split.
  - intros E P. rewrite P in E. discriminate E.
  - intros N. by rewrite SFeqb_refl.
Qed.

Lemma float_finite_of_SF (x : float) s m e :
  Prim2SF x = S754_finite s m e → is_finite x = true.
Proof.
  intros P. unfold is_finite, is_nan, is_infinity.
  rewrite !FloatAxioms.eqb_spec, abs_spec, P, SFeqb_finite_refl. reflexivity.
Qed.

Lemma float_finite_not_nan (x : float) : is_finite x = true → is_nan x = false.
Proof. unfold is_finite. by destruct (is_nan x). Qed.

(** The difference of two real-valued numbers is a number or an infinity. *)
Lemma float_sub_not_nan (x y : float) :
  is_finite x = true → is_finite y = true → is_nan (x - y) = false.
Proof.
  intros Hx Hy. apply float_not_nan. rewrite sub_spec.
  apply SFsub_NotNaN.
  - intros s. by destruct (float_is_finite_spec x Hx) as [[? ->] | (? & ? & ? & ->)].
  - intros s. by destruct (float_is_finite_spec y Hy) as [[? ->] | (? & ? & ? & ->)].
  - by destruct (float_is_finite_spec x Hx) as [[? ->] | (? & ? & ? & ->)].
  - by destruct (float_is_finite_spec y Hy) as [[? ->] | (? & ? & ? & ->)].
Qed.

(** The difference of two real-valued numbers that compare equal is a zero. *)
Lemma float_eqb_sub (x y : float) :
  is_finite x = true → PrimFloat.eqb x y = true → PrimFloat.eqb (x - y) 0 = true.
Proof.
  intros Hf E. rewrite FloatAxioms.eqb_spec in *. rewrite sub_spec.
  destruct (float_is_finite_spec x Hf) as [[s Ex] | (s & m & e & Ex)]; rewrite Ex in *.
  - by destruct s, (Prim2SF y) as [[]|[]| |[] m' e'].
  - destruct (Prim2SF y) as [[]|[]| |s' m' e']; try (destruct s; discriminate E).
    apply SFeqb_finite in E as (<- & <- & <-). by rewrite SFsub_finite_diag.
Qed.

Lemma float_eqb_cases (x y : float) :
  PrimFloat.eqb x y = true →
  x = y ∨ (PrimFloat.eqb x 0 = true ∧ PrimFloat.eqb y 0 = true).
Proof.
  rewrite !FloatAxioms.eqb_spec. intros E.
  destruct (SFeqb_cases _ _ E) as [P | (s & s' & -> & ->)].
  - left. by apply Prim2SF_inj.
  - right. by destruct s, s'.
Qed.

Lemma float_eqb_one (a : float) : PrimFloat.eqb a 1 = true → a = 1%float.
Proof.
  intros E. destruct (float_eqb_cases _ _ E) as [-> | [_ Z]]; [done|].
  discriminate Z.
Qed.

(** A real-valued number other than the zeros: [float_pow] hands its
    absolute value, positive and real-valued, to the C library. *)
Lemma pow2_operand (x : float) :
  is_nan x = false → is_infinity x = false → PrimFloat.eqb x 0 = false →
  (if PrimFloat.ltb x 0 then PrimFloat.opp x else x) = PrimFloat.abs x
  ∧ is_finite (PrimFloat.abs x) = true
  ∧ PrimFloat.ltb 0 (PrimFloat.abs x) = true.
Proof.
  intros Hn Hi Hz.
  assert (∃ s m e, Prim2SF x = S754_finite s m e) as (s & m & e & P).
  { unfold is_nan, is_infinity in *.
    rewrite FloatAxioms.eqb_spec in Hn, Hi, Hz. rewrite abs_spec in Hi.
    destruct (Prim2SF x) as [[]|[]| |s m e]; try discriminate; eauto. }
  assert (Pa : Prim2SF (PrimFloat.abs x) = S754_finite false m e)
    by (by rewrite abs_spec, P).
  split; [|split].
  - rewrite ltb_spec, P. apply Prim2SF_inj. rewrite Pa.
    destruct s; cbn; [|done]. by rewrite opp_spec, P.
  - by eapply float_finite_of_SF.
  - by rewrite ltb_spec, Pa.
Qed.

(** *** Additions, products and square roots, by sign and size *)

Lemma F_add_NN (x y : float) :
  NN (Prim2SF x) → NN (Prim2SF y) → NN (Prim2SF (x + y)).
Proof. rewrite add_spec. apply SFadd_NN. Qed.

Lemma F_add_BIG_l (E : Z) (x y : float) :
  (-1074 <= E)%Z → BIG E (Prim2SF x) → NN (Prim2SF y) → BIG E (Prim2SF (x + y)).
Proof. rewrite add_spec. apply SFadd_BIG_l. Qed.

Lemma F_add_BIG_r (E : Z) (x y : float) :
  (-1074 <= E)%Z → NN (Prim2SF x) → BIG E (Prim2SF y) → BIG E (Prim2SF (x + y)).
Proof. rewrite add_spec. apply SFadd_BIG_r. Qed.

(** The sum of three non-negative numbers, one of them at least [2^E]. *)
Lemma F_add3_BIG (E : Z) (x y z : float) :
  (-1074 <= E)%Z →
  NN (Prim2SF x) → NN (Prim2SF y) → NN (Prim2SF z) →
  BIG E (Prim2SF x) ∨ BIG E (Prim2SF y) ∨ BIG E (Prim2SF z) →
  BIG E (Prim2SF (x + y + z)).
Proof.
  intros HE Nx Ny Nz [B | [B | B]].
  - apply F_add_BIG_l; [done| |done]. by apply F_add_BIG_l.
  - apply F_add_BIG_l; [done| |done]. by apply F_add_BIG_r.
  - apply F_add_BIG_r; [done| |done]. by apply F_add_NN.
Qed.

Lemma F_mul_NN (c x : float) m e :
  Prim2SF c = S754_finite false m e → NN (Prim2SF x) → NN (Prim2SF (c * x)).
Proof. intros P. rewrite mul_spec, P. apply SFmul_const_NN. Qed.

Lemma F_mul_BIG (E1 E2 : Z) (c x : float) :
  (-1074 <= E1 + E2)%Z →
  BIG E1 (Prim2SF c) → BIG E2 (Prim2SF x) → BIG (E1 + E2) (Prim2SF (c * x)).
Proof. rewrite mul_spec. apply SFmul_BIG. Qed.

Lemma F_sqrt_NN (x : float) : NN (Prim2SF x) → NN (Prim2SF (PrimFloat.sqrt x)).
Proof. rewrite sqrt_spec. apply SFsqrt_NN. Qed.

Lemma F_sqrt_BIG (E : Z) (x : float) :
  BIG E (Prim2SF x) → BIG (-1074) (Prim2SF (PrimFloat.sqrt x)).
Proof. rewrite sqrt_spec. intros B. eapply SFsqrt_BIG; [done|apply Prim2SF_valid]. Qed.

Lemma F_NN_leb (x : float) : NN (Prim2SF x) ↔ PrimFloat.leb 0 x = true.
Proof. rewrite leb_spec. apply NN_SFleb. Qed.

Lemma F_BIG_nonzero (E : Z) (x : float) :
  BIG E (Prim2SF x) → PrimFloat.eqb x 0 = false.
Proof. rewrite FloatAxioms.eqb_spec. apply BIG_SFeqb. Qed.

(** The value [HuberStress] returns from six squares. *)
Lemma Huber_value_NN (p1 p2 p3 p4 p5 p6 : float) :
  Forall (λ p, NN (Prim2SF p)) [p1; p2; p3; p4; p5; p6] →
  NN (Prim2SF (np_sqrt (half * (p1 + p2 + p3) + of_int 3 * (p4 + p5 + p6)))%py).
Proof.
  intros F. repeat (apply Forall_cons in F as [? F]). cbn.
  apply F_sqrt_NN, F_add_NN.
  - eapply (F_mul_NN 0.5); [reflexivity|]. by repeat apply F_add_NN.
  - eapply (F_mul_NN (float_of_int 3)); [reflexivity|]. by repeat apply F_add_NN.
Qed.

Lemma Huber_value_BIG (p1 p2 p3 p4 p5 p6 : float) :
  Forall (λ p, NN (Prim2SF p)) [p1; p2; p3; p4; p5; p6] →
  Exists (λ p, BIG (-1001) (Prim2SF p)) [p1; p2; p3; p4; p5; p6] →
  BIG (-1074) (Prim2SF (np_sqrt (half * (p1 + p2 + p3) + of_int 3 * (p4 + p5 + p6)))%py).
Proof.
  intros F B. repeat (apply Forall_cons in F as [? F]). cbn.
  apply (F_sqrt_BIG (-1002)).
  assert (N1 : NN (Prim2SF (0.5 * (p1 + p2 + p3))))
    by (eapply (F_mul_NN 0.5); [reflexivity|]; by repeat apply F_add_NN).
  assert (N2 : NN (Prim2SF (float_of_int 3 * (p4 + p5 + p6))))
    by (eapply (F_mul_NN (float_of_int 3)); [reflexivity|]; by repeat apply F_add_NN).
  assert (B' : Exists (λ p, BIG (-1001) (Prim2SF p)) [p1; p2; p3]
               ∨ Exists (λ p, BIG (-1001) (Prim2SF p)) [p4; p5; p6]).
  { rewrite !Exists_cons in B. rewrite !Exists_cons. tauto. }
  destruct B' as [B' | B']; rewrite !Exists_cons, Exists_nil in B'.
  - apply F_add_BIG_l; [lia| |done].
    apply (F_mul_BIG (-1) (-1001)); [lia|vm_compute; discriminate|].
    apply F_add3_BIG; [lia|done..|tauto].
  - apply F_add_BIG_r; [lia|done|].
    apply (BIG_mono (1 + -1001)); [lia|].
    apply (F_mul_BIG 1 (-1001)); [lia|vm_compute; discriminate|].
    apply F_add3_BIG; [lia|done..|tauto].
Qed.

(** ** Binary64: no overflow, no cancellation to zero *)

Section Bounds.
Local Open Scope Z_scope.

Lemma shr_fexp_exp (m e : Z) (l : location) :
  0 < m → (shr_fexp prec emax m e l).2 = Z.max e (fexp prec emax (Z.log2 m + 1 + e)).
Proof.
  intros Hm. unfold shr_fexp.
  assert (H0 : 0 <= shr_m (shr_record_of_loc m l)) by (rewrite shr_record_of_loc_m; lia).
  destruct (shr_m_spec (shr_record_of_loc m l) e
              (fexp prec emax (Zdigits2 m + e) - e) H0) as [_ ->].
  rewrite Zdigits2_log2 by done. lia.
Qed.

Lemma log2_succ_le (m : Z) : 0 < m → Z.log2 (m + 1) <= Z.log2 m + 1.
Proof.
  intros Hm. assert (E : Z.log2 (2 * m) = Z.log2 m + 1) by (rewrite Z.log2_double; lia).
  rewrite <- E. apply Z.log2_le_mono. lia.
Qed.

(** Rounding a positive mantissa whose leading bit is at or above the least
    exponent gives no zero. *)
Lemma binary_round_aux_NZ (s : bool) (m e : Z) (l : location) :
  0 < m → -1074 <= Z.log2 m + e → NZ (binary_round_aux prec emax s m e l).
Proof.
  intros Hm HL. unfold binary_round_aux.
  destruct (shr_fexp_mag m e l Hm ltac:(lia)) as [P1 M1].
  destruct (shr_fexp prec emax m e l) as [r1 e1]. cbn [fst snd] in P1, M1.
  pose proof (round_nearest_even_bounds (shr_m r1) (loc_of_shr_record r1)) as B.
  set (m1 := round_nearest_even (shr_m r1) (loc_of_shr_record r1)) in *.
  assert (L1 : Z.log2 (shr_m r1) <= Z.log2 m1) by (apply Z.log2_le_mono; lia).
  destruct (shr_fexp_mag m1 e1 loc_Exact ltac:(lia) ltac:(lia)) as [P2 M2].
  destruct (shr_fexp prec emax m1 e1 loc_Exact) as [r2 e2]. cbn [fst snd] in P2, M2.
  destruct (shr_m r2) as [|m2|m2] eqn:Em; [lia| |lia].
  by destruct (_ <=? _).
Qed.

(** Rounding a mantissa whose leading bit is well below the greatest
    exponent gives no infinity. *)
Lemma binary_round_aux_FIN (s : bool) (m e : Z) (l : location) :
  0 < m → -1074 <= Z.log2 m + e → Z.log2 m + e <= 1021 → e <= 969 →
  FIN (binary_round_aux prec emax s m e l).
Proof.
  intros Hm HL HU He. unfold binary_round_aux.
  destruct (shr_fexp_mag m e l Hm ltac:(lia)) as [P1 M1].
  pose proof (shr_fexp_exp m e l Hm) as X1.
  destruct (shr_fexp prec emax m e l) as [r1 e1]. cbn [fst snd] in P1, M1, X1.
  pose proof (round_nearest_even_bounds (shr_m r1) (loc_of_shr_record r1)) as B.
  set (m1 := round_nearest_even (shr_m r1) (loc_of_shr_record r1)) in *.
  assert (L1 : Z.log2 (shr_m r1) <= Z.log2 m1) by (apply Z.log2_le_mono; lia).
  assert (U1 : Z.log2 m1 <= Z.log2 (shr_m r1) + 1).
  { etrans; [|by apply log2_succ_le]. apply Z.log2_le_mono. lia. }
  destruct (shr_fexp_mag m1 e1 loc_Exact ltac:(lia) ltac:(lia)) as [P2 M2].
  pose proof (shr_fexp_exp m1 e1 loc_Exact ltac:(lia)) as X2.
  destruct (shr_fexp prec emax m1 e1 loc_Exact) as [r2 e2]. cbn [fst snd] in P2, M2, X2.
  destruct (shr_m r2) as [|m2|m2] eqn:Em; [done| |lia].
  assert (e2 <= emax - prec) as ->%Z.leb_le; [|done].
  unfold fexp, SpecFloat.emin, prec, emax in *. lia.
Qed.

Lemma valid_finite_exp s m e :
  valid_binary (S754_finite s m e) = true → e = Z.max (Z.log2 (Z.pos m) + e - 52) (-1074).
Proof.
  unfold SpecFloat.valid_binary, bounded, canonical_mantissa. intros V.
  apply andb_prop in V as [V _]. apply Z.eqb_eq in V.
  rewrite digits2_log2 in V. unfold fexp, SpecFloat.emin, prec, emax in V. lia.
Qed.

Lemma SFleb_exp m e mc ec :
  SFleb (S754_finite false m e) (S754_finite false mc ec) = true → e <= ec.
Proof.
  unfold SFleb, SFcompare. destruct (Z.compare_spec e ec); [lia|lia|done].
Qed.

(** The product of two numbers between [2^-500] and [2^500] is a number. *)
Lemma SFmul_FIN X Y :
  valid_binary X = true → valid_binary Y = true →
  BIG (-500) X → BIG (-500) Y →
  SFleb X (S754_finite false 4503599627370496 448) = true →
  SFleb Y (S754_finite false 4503599627370496 448) = true →
  FIN (SF64mul X Y).
Proof.
  destruct X as [[]|[]| |[] mx ex], Y as [[]|[]| |[] my ey]; cbn [BIG]; try done.
  intros VX VY BX BY LX LY.
  apply SFleb_exp in LX, LY.
  apply valid_finite_upper in VX as [VX _], VY as [VY _].
  unfold SF64mul, SFmul. cbn [xorb].
  pose proof (Z.log2_mul_below (Z.pos mx) (Z.pos my) ltac:(lia) ltac:(lia)).
  pose proof (Z.log2_mul_above (Z.pos mx) (Z.pos my) ltac:(lia) ltac:(lia)).
  apply binary_round_aux_FIN; rewrite ?Pos2Z.inj_mul; lia.
Qed.

(** The difference of two numbers is a zero only when they are the same. *)
Lemma SFsub_zero sx mx ex sy my ey s :
  valid_binary (S754_finite sx mx ex) = true →
  valid_binary (S754_finite sy my ey) = true →
  SF64sub (S754_finite sx mx ex) (S754_finite sy my ey) = S754_zero s →
  S754_finite sx mx ex = S754_finite sy my ey.
Proof.
  intros VX VY. unfold SF64sub, SFsub. cbv zeta.
  pose proof (valid_finite_exp _ _ _ VX) as EX.
  pose proof (valid_finite_exp _ _ _ VY) as EY.
  pose proof (shl_align_mag mx ex (Z.min ex ey)) as Mx.
  pose proof (shl_align_le mx ex (Z.min ex ey) ltac:(lia)) as Ex.
  pose proof (shl_align_mag my ey (Z.min ex ey)) as My.
  pose proof (shl_align_le my ey (Z.min ex ey) ltac:(lia)) as Ey.
  assert (A : ex = ey → (shl_align mx ex (Z.min ex ey)).1 = mx
                        ∧ (shl_align my ey (Z.min ex ey)).1 = my).
  { intros ->. rewrite Z.min_id. unfold shl_align. by rewrite Z.sub_diag. }
  destruct (shl_align mx ex _) as [a ea]. destruct (shl_align my ey _) as [b eb].
  cbn [fst snd] in *. subst ea eb.
  destruct (cond_Zopp sx (Z.pos a) - cond_Zopp sy (Z.pos b)) as [|d|d] eqn:D;
    cbn [binary_normalize].
  - intros _.
    assert (sx = sy ∧ a = b) as [-> ->] by (destruct sx, sy; cbn in D; split; (done || lia)).
    assert (ex = ey) as -> by lia.
    destruct (A eq_refl) as [-> ->]. done.
  - intros Hz. exfalso. unfold binary_round in Hz.
    pose proof (shl_align_mag d (Z.min ex ey)
                  (fexp prec emax (Z.pos (digits2_pos d) + Z.min ex ey))) as Md.
    destruct (shl_align d _ _) as [dz ez]. cbn [fst snd] in Md.
    pose proof (binary_round_aux_NZ false (Z.pos dz) ez loc_Exact ltac:(lia)) as N'.
    rewrite Hz in N'. apply N'. pose proof (Z.log2_nonneg (Z.pos d)). lia.
  - intros Hz. exfalso. unfold binary_round in Hz.
    pose proof (shl_align_mag d (Z.min ex ey)
                  (fexp prec emax (Z.pos (digits2_pos d) + Z.min ex ey))) as Md.
    destruct (shl_align d _ _) as [dz ez]. cbn [fst snd] in Md.
    pose proof (binary_round_aux_NZ true (Z.pos dz) ez loc_Exact ltac:(lia)) as N'.
    rewrite Hz in N'. apply N'. pose proof (Z.log2_nonneg (Z.pos d)). lia.
Qed.
End Bounds.

(** ** Binary64: underflow to zero *)

Section Underflow.
Local Open Scope Z_scope.

Lemma shr_1_r (r : shr_record) : 0 <= shr_m r → shr_r (shr_1 r) = Z.odd (shr_m r).
Proof.
  destruct r as [m b s]. destruct m as [|p|p]; cbn; intros H; [done| |lia].
  by destruct p.
Qed.

Lemma iter_shr_1_nonneg (n : positive) (r : shr_record) :
  0 <= shr_m r → 0 <= shr_m (SpecFloat.iter_pos shr_1 n r).
Proof. intros H. rewrite iter_shr_1_m by done. apply Z.div_pos; lia. Qed.

(** The round bit after [n] shifts is bit [n - 1] of the mantissa. *)
Lemma iter_shr_1_r (n : positive) (r : shr_record) :
  0 <= shr_m r →
  shr_r (SpecFloat.iter_pos shr_1 n r) = Z.odd (shr_m r / 2 ^ (Z.pos n - 1)).
Proof.
  revert r. induction n as [n IH|n IH|]; intros r H; cbn [SpecFloat.iter_pos].
  - assert (H1 : 0 <= shr_m (shr_1 r)) by (rewrite shr_1_m by done; apply Z.div_pos; lia).
    rewrite IH by (by apply iter_shr_1_nonneg).
    rewrite iter_shr_1_m, shr_1_m by done.
    rewrite !Z.div_div by lia. f_equal. f_equal.
    replace (Z.pos n~1 - 1) with (1 + Z.pos n + (Z.pos n - 1)) by lia.
    rewrite !Z.pow_add_r, Z.pow_1_r by lia. ring.
  - rewrite IH by (by apply iter_shr_1_nonneg).
    rewrite iter_shr_1_m by done.
    rewrite !Z.div_div by lia. f_equal. f_equal.
    replace (Z.pos n~0 - 1) with (Z.pos n + (Z.pos n - 1)) by lia.
    rewrite !Z.pow_add_r by lia. ring.
  - rewrite shr_1_r by done. by rewrite Z.div_1_r.
Qed.

(** A mantissa whose leading bit is more than two places below the least
    exponent is rounded to zero. *)
Lemma binary_round_aux_underflow (s : bool) (m : positive) (e : Z) :
  Z.log2 (Z.pos m) + e <= -1077 →
  binary_round_aux prec emax s (Z.pos m) e loc_Exact = S754_zero s.
Proof.
  intros HL. unfold binary_round_aux, shr_fexp.
  rewrite Zdigits2_log2 by done.
  pose proof (Z.log2_nonneg (Z.pos m)) as L0.
  assert (En : fexp prec emax (Z.log2 (Z.pos m) + 1 + e) - e = -1074 - e)
    by (unfold fexp, SpecFloat.emin, prec, emax; lia).
  rewrite En. destruct (-1074 - e) as [|n|n] eqn:N; [lia| |lia].
  cbn [shr shr_record_of_loc].
  set (r0 := {| shr_m := Z.pos m; shr_r := false; shr_s := false |}).
  assert (H0 : 0 <= shr_m r0) by (cbn; lia).
  assert (Hlt : Z.pos m < 2 ^ (Z.pos n - 1)).
  { apply Z.log2_lt_pow2; lia. }
  assert (Em : shr_m (SpecFloat.iter_pos shr_1 n r0) = 0).
  { rewrite iter_shr_1_m by done. cbn [shr_m r0]. apply Z.div_small. split; [lia|].
    eapply Z.lt_le_trans; [exact Hlt|]. apply Z.pow_le_mono_r; lia. }
  assert (Er : shr_r (SpecFloat.iter_pos shr_1 n r0) = false).
  { rewrite iter_shr_1_r by done. cbn [shr_m r0]. rewrite Z.div_small by lia. done. }
  destruct (SpecFloat.iter_pos shr_1 n r0) as [m1 b1 s1]. cbn [shr_m shr_r] in Em, Er.
  subst m1 b1. cbn [loc_of_shr_record shr_m shr_r shr_s].
  assert (R : round_nearest_even 0 (if s1 then loc_Inexact Lt else loc_Exact) = 0)
    by (by destruct s1).
  rewrite R. cbn [Zdigits2]. 
  replace (e + Z.pos n) with (-1074) by lia. reflexivity.
Qed.

(** The product of two positive numbers up to [2^-600] is [+0]. *)
Lemma SFmul_underflow X Y :
  valid_binary X = true → valid_binary Y = true →
  SFltb (S754_zero false) X = true → SFltb (S754_zero false) Y = true →
  SFleb X (S754_finite false 4503599627370496 (-652)) = true →
  SFleb Y (S754_finite false 4503599627370496 (-652)) = true →
  SF64mul X Y = S754_zero false.
Proof.
  destruct X as [[]|[]| |[] mx ex], Y as [[]|[]| |[] my ey]; try done.
  intros VX VY _ _ LX LY.
  apply SFleb_exp in LX, LY.
  apply valid_finite_upper in VX as [VX _], VY as [VY _].
  unfold SF64mul, SFmul. cbn [xorb].
  apply binary_round_aux_underflow. rewrite Pos2Z.inj_mul.
  pose proof (Z.log2_mul_above (Z.pos mx) (Z.pos my) ltac:(lia) ltac:(lia)). lia.
Qed.
End Underflow.



Lemma float_mul_comm (x y : float) : (x * y = y * x)%float.
Proof.
  apply Prim2SF_inj. rewrite !mul_spec. unfold SF64mul, SFmul.
  destruct (Prim2SF x) as [s|s| |s m e], (Prim2SF y) as [s'|s'| |s' m' e'];
    rewrite ?(xorb_comm s s'), ?(Pos.mul_comm m m'), ?(Z.add_comm e e'); reflexivity.
Qed.

(** Multiplying by 1 changes no binary64 value: the product of the mantissa
    with [2^52] is shifted back by 52 places without losing a bit. *)
Lemma float_mul_1_r (x : float) : (x * 1 = x)%float.
Proof.
  apply Prim2SF_inj. rewrite mul_spec.
  pose proof (Prim2SF_valid x) as V.
  change (Prim2SF 1) with (S754_finite false 4503599627370496 (-52)).
  destruct (Prim2SF x) as [s|s| |s m e]; [destruct s; reflexivity..|reflexivity|].
  unfold SF64mul, SFmul. rewrite xorb_false_r.
  unfold SpecFloat.valid_binary, bounded, canonical_mantissa in V.
  apply andb_prop in V as [V1 V2].
  apply Z.eqb_eq in V1.
  unfold binary_round_aux.
  rewrite !Pos.mul_xO_r, Pos.mul_1_r.
  unfold shr_fexp at 1.
  match goal with |- context [Zdigits2 (Z.pos ?p)] =>
    assert (D : Zdigits2 (Z.pos p) = (Z.pos (digits2_pos m) + 52)%Z) by (cbn; lia) end.
  rewrite D.
  replace (Z.pos (digits2_pos m) + 52 + (e + -52))%Z with (Z.pos (digits2_pos m) + e)%Z by lia.
  rewrite V1.
  replace (e - (e + -52))%Z with 52%Z by lia.
  unfold shr at 1.
  match goal with |- context [SpecFloat.iter_pos shr_1 52 ?r] =>
    change (SpecFloat.iter_pos shr_1 52 r)
      with {| shr_m := Z.pos m; shr_r := false; shr_s := false |} end.
  cbn [loc_of_shr_record shr_m shr_r shr_s round_nearest_even].
  unfold shr_fexp. cbn [Zdigits2].
  replace (e + -52 + 52)%Z with e by lia.
  rewrite V1, Z.sub_diag.
  cbn [shr shr_record_of_loc shr_m].
  by rewrite V2.
Qed.

Lemma float_positive_SF (a : float) :
  is_finite a = true → PrimFloat.ltb 0 a = true →
  ∃ m e, Prim2SF a = S754_finite false m e.
Proof.
  intros Hf Hp. rewrite ltb_spec in Hp.
  destruct (float_is_finite_spec a Hf) as [[s P] | (s & m & e & P)]; rewrite P in Hp.
  - by destruct s.
  - destruct s; [discriminate Hp|eauto].
Qed.

Lemma float_not_ltb_leb (a c : float) ma ea mc ec :
  Prim2SF a = S754_finite false ma ea → Prim2SF c = S754_finite false mc ec →
  PrimFloat.ltb a c = false → PrimFloat.leb c a = true.
Proof.
  intros Pa Pc. rewrite ltb_spec, leb_spec, Pa, Pc. apply SFltb_SFleb.
Qed.

Lemma float_abs_infinity (x : float) :
  is_infinity x = true → Prim2SF (PrimFloat.abs x) = S754_infinity false.
Proof.
  unfold is_infinity. rewrite FloatAxioms.eqb_spec. intros E.
  destruct (SFeqb_cases _ _ E) as [P | (s & s' & _ & P)]; [done|discriminate P].
Qed.

Lemma float_FIN_not_infinity (r : float) : FIN (Prim2SF r) → is_infinity r = false.
Proof.
  unfold is_infinity. rewrite FloatAxioms.eqb_spec, abs_spec.
  by destruct (Prim2SF r) as [[]|[]| |[] m e].
Qed.

(** The difference of two real-valued numbers is a zero only when they
    compare equal: binary64 has no underflow in a subtraction. *)
Lemma float_sub_eq0 (x y : float) :
  is_finite x = true → is_finite y = true →
  PrimFloat.eqb (x - y) 0 = true → PrimFloat.eqb x y = true.
Proof.
  intros Hx Hy. rewrite !FloatAxioms.eqb_spec, sub_spec.
  pose proof (Prim2SF_valid x) as Vx. pose proof (Prim2SF_valid y) as Vy.
  destruct (float_is_finite_spec x Hx) as [[sx Px] | (sx & mx & ex & Px)];
    destruct (float_is_finite_spec y Hy) as [[sy Py] | (sy & my & ey & Py)];
    rewrite Px, Py in *.
  - by destruct sx, sy.
  - by destruct sx, sy.
  - by destruct sx, sy.
  - intros E.
    destruct (SF64sub (S754_finite sx mx ex) (S754_finite sy my ey))
      as [s|[]| |[] m e] eqn:S; try discriminate E.
    apply SFsub_zero in S; [|done..]. rewrite S. apply SFeqb_finite_refl.
Qed.

Lemma float_ltb_not_leb (a c : float) mc ec :
  Prim2SF c = S754_finite false mc ec →
  PrimFloat.ltb a c = true → PrimFloat.leb c a = false.
Proof.
  intros Pc. rewrite ltb_spec, leb_spec, Pc.
  destruct (Prim2SF a) as [[]|[]| |[] m e]; try done.
  unfold SFltb, SFleb, SFcompare. rewrite (Z.compare_antisym e ec).
  change (PosDef.Pos.compare_cont Eq m mc) with (Pos.compare m mc).
  change (PosDef.Pos.compare_cont Eq mc m) with (Pos.compare mc m).
  rewrite (Pos.compare_antisym mc m).
  by destruct (e ?= ec)%Z, (mc ?= m)%positive.
Qed.

(** ** A correctly rounding C library meets the contract *)

Lemma correctly_rounded_contract : libm_contract correctly_rounded.
Proof.
  split; intros x; unfold c_pow2, correctly_rounded; cbv zeta; cbn [fst snd].
  - intros Hf Hp. split; [|by destruct (_ || _)].
    destruct (float_positive_SF x Hf Hp) as (m & e & P).
    apply F_NN_leb. eapply F_mul_NN; [done|]. by rewrite P.
  - intros Hf Hb.
    assert (B : BIG (52 + 460) (Prim2SF x)).
    { rewrite leb_spec in Hb. apply SFleb_BIG; [done|done|apply Prim2SF_valid]. }
    apply Prim2SF_inj. apply BIG_overflow; [|apply Prim2SF_valid].
    by apply (F_mul_BIG 512 512).
  - intros Hp Hb. apply Prim2SF_inj. rewrite mul_spec.
    rewrite ltb_spec in Hp. rewrite leb_spec in Hb.
    apply SFmul_underflow; first [apply Prim2SF_valid | done].
  - intros Hf Hb.
    assert (B : BIG (52 + -552) (Prim2SF x)).
    { rewrite leb_spec in Hb. apply SFleb_BIG; [done|done|apply Prim2SF_valid]. }
    rewrite leb_spec.
    apply (BIG_SFleb (-500 + -500) (-1053)); [|apply Prim2SF_valid|done].
    by apply (F_mul_BIG (-500) (-500)).
  - intros Hb Hu.
    assert (B : BIG (52 + -552) (Prim2SF x)).
    { rewrite leb_spec in Hb. apply SFleb_BIG; [done|done|apply Prim2SF_valid]. }
    assert (I : is_infinity (x * x) = false).
    { apply float_FIN_not_infinity. rewrite mul_spec. rewrite leb_spec in Hu.
      apply SFmul_FIN; first [apply Prim2SF_valid | done]. }
    assert (Z : PrimFloat.eqb (x * x) 0 = false).
    { apply (F_BIG_nonzero (-500 + -500)). by apply (F_mul_BIG (-500) (-500)). }
    by rewrite I, Z.
Qed.

(** ** Results *)

Lemma bind_Ok_inv {A B} (m : result A) (f : A → result B) (b : B) :
  m ≫= f = Ok b → ∃ a, m = Ok a ∧ f a = Ok b.
Proof. destruct m as [a|e]; [eauto|discriminate]. Qed.

Lemma only_overflow_ret {A} (a : A) : only_overflow (Ok a).
Proof. by intros e. Qed.

Lemma only_overflow_bind {A B} (m : result A) (f : A → result B) :
  only_overflow m → (∀ a, only_overflow (f a)) → only_overflow (m ≫= f).
Proof.
  intros Hm Hf e. destruct m as [a|e']; cbn.
  - apply Hf.
  - intros [= <-]. by apply Hm.
Qed.

(** ** [x ** 2] on a float *)

Section Pow.
Context {pf : libm}.

(** The five ways through [float_pow]. *)
Lemma float_pow2_cases (x : float) :
  (is_nan x = true ∧ py_pow2 x = Ok x)
  ∨ (is_nan x = false ∧ is_infinity x = true ∧ py_pow2 x = Ok (PrimFloat.abs x))
  ∨ (PrimFloat.eqb x 0 = true ∧ py_pow2 x = Ok 0%float)
  ∨ (is_nan x = false ∧ PrimFloat.eqb (PrimFloat.abs x) 1 = true ∧ py_pow2 x = Ok 1%float)
  ∨ (is_nan x = false ∧ is_finite (PrimFloat.abs x) = true
     ∧ PrimFloat.ltb 0 (PrimFloat.abs x) = true
     ∧ PrimFloat.eqb x 0 = false
     ∧ PrimFloat.eqb (PrimFloat.abs x) 1 = false
     ∧ py_pow2 x = call_pow (PrimFloat.abs x)).
Proof.
  unfold py_pow2, float_power, float_pow2.
  destruct (is_nan x) eqn:Hn; [by left|].
  destruct (is_infinity x) eqn:Hi; [by right; left|].
  destruct (PrimFloat.eqb x 0) eqn:Hz; [by right; right; left|].
  destruct (pow2_operand x Hn Hi Hz) as (E & Hf & Hp). cbv zeta. rewrite E.
  destruct (PrimFloat.eqb (PrimFloat.abs x) 1) eqn:H1.
  - by right; right; right; left.
  - by right; right; right; right.
Qed.

Lemma float_pow2_zero (x : float) :
  PrimFloat.eqb x 0 = true → py_pow2 x = Ok 0%float.
Proof. intros E. by destruct (float_eqb_zero x E) as [-> | ->]. Qed.


Hypothesis Hpf : libm_contract pf.

Lemma call_pow_raises (a : float) :
  is_finite a = true → PrimFloat.ltb 0 a = true → only_overflow (call_pow a).
Proof.
  intros Hf Hp e. unfold call_pow.
  destruct (pow2_sign pf Hpf a Hf Hp) as [_ He].
  destruct (c_pow2 a) as [ix err]. cbn [snd] in He.
  destruct err; cbn [Py_ADJUST_ERANGE1]; [| |done].
  - destruct (is_infinity ix); congruence.
  - destruct (PrimFloat.eqb ix 0); congruence.
Qed.

Lemma call_pow_Ok (a p : float) :
  call_pow a = Ok p → p = (c_pow2 a).1.
Proof.
  unfold call_pow. destruct (c_pow2 a) as [ix err]. cbn [fst].
  destruct (Py_ADJUST_ERANGE1 ix err); congruence.
Qed.

Lemma float_pow2_raises (x : float) : only_overflow (py_pow2 x).
Proof.
  destruct (float_pow2_cases x)
    as [[_ ->] | [(_ & _ & ->) | [[_ ->] | [(_ & _ & ->) | (_ & Hf & Hp & _ & _ & ->)]]]];
    try apply only_overflow_ret.
  by apply call_pow_raises.
Qed.

(** A square is not negative. *)
Lemma float_pow2_NN (x p : float) :
  is_nan x = false → py_pow2 x = Ok p → NN (Prim2SF p).
Proof.
  intros Hn.
  destruct (float_pow2_cases x)
    as [[N _] | [(_ & Hi & ->) | [[_ ->] | [(_ & _ & ->) | (_ & Hf & Hp & _ & _ & ->)]]]].
  - congruence.
  - intros [= <-]. by rewrite float_abs_infinity.
  - by intros [= <-].
  - by intros [= <-].
  - intros E. apply call_pow_Ok in E as ->.
    apply F_NN_leb. by apply (pow2_sign pf Hpf).
Qed.

(** The square of a number of size [2^-500] or more is not lost. *)
Lemma float_pow2_BIG (x p : float) :
  is_nan x = false → PrimFloat.ltb (PrimFloat.abs x) 0x1p-500 = false →
  py_pow2 x = Ok p → BIG (-1001) (Prim2SF p).
Proof.
  intros Hn Hb.
  destruct (float_pow2_cases x)
    as [[N _] | [(_ & Hi & ->) | [[Hz ->] | [(_ & _ & ->) | (_ & Hf & Hp & _ & _ & ->)]]]].
  - congruence.
  - intros [= <-]. by rewrite float_abs_infinity.
  - by destruct (float_eqb_zero x Hz) as [-> | ->].
  - intros [= <-]. vm_compute. discriminate.
  - intros E. apply call_pow_Ok in E as ->.
    destruct (float_positive_SF _ Hf Hp) as (m & e & P).
    pose proof (float_not_ltb_leb _ 0x1p-500 _ _ _ _ P eq_refl Hb) as L.
    pose proof (pow2_lower pf Hpf _ Hf L) as L'. rewrite leb_spec in L'.
    apply (SFleb_BIG (-1053)); [done|done|apply Prim2SF_valid].
Qed.

(** In range the square is returned. *)
Lemma float_pow2_returns (x : float) :
  square_in_range x = true → returns (py_pow2 x).
Proof.
  intros Hr.
  destruct (float_pow2_cases x)
    as [[_ ->] | [(_ & _ & ->) | [[_ ->] | [(_ & _ & ->) | (_ & Hf & Hp & Hz & _ & ->)]]]];
    try (by eexists).
  unfold square_in_range in Hr. rewrite Hz in Hr. cbn [orb] in Hr.
  apply andb_prop in Hr as [Hb Hu].
  destruct (pow2_normal pf Hpf _ Hb Hu) as [He Hi]. unfold call_pow.
  destruct (c_pow2 (PrimFloat.abs x)) as [ix err]. cbn [fst snd] in *. subst err.
  cbn [Py_ADJUST_ERANGE1]. rewrite Hi. by eexists.
Qed.

Lemma float_pow2_overflow (x : float) :
  is_finite x = true → PrimFloat.leb 0x1p512 (PrimFloat.abs x) = true →
  py_pow2 x = Raise OverflowError.
Proof.
  intros Hfx Hb. pose proof (float_finite_not_nan x Hfx) as Hn.
  destruct (float_pow2_cases x)
    as [[N _] | [(_ & Hi & _) | [[Hz _] | [(_ & H1 & _) | (_ & Hf & Hp & _ & _ & ->)]]]].
  - congruence.
  - unfold is_finite in Hfx. by rewrite Hn, Hi in Hfx.
  - by destruct (float_eqb_zero x Hz) as [-> | ->].
  - apply float_eqb_one in H1. by rewrite H1 in Hb.
  - unfold call_pow.
    pose proof (pow2_overflow pf Hpf _ Hf Hb) as V.
    destruct (pow2_sign pf Hpf _ Hf Hp) as [_ He].
    destruct (c_pow2 (PrimFloat.abs x)) as [ix err]. cbn [fst snd] in *. subst ix.
    by destruct err.
Qed.

Lemma float_pow2_underflow (x : float) :
  is_finite x = true → PrimFloat.eqb x 0 = false →
  PrimFloat.leb (PrimFloat.abs x) 0x1p-600 = true →
  py_pow2 x = Ok 0%float.
Proof.
  intros Hfx Hnz Hb. pose proof (float_finite_not_nan x Hfx) as Hn.
  destruct (float_pow2_cases x)
    as [[N _] | [(_ & Hi & _) | [[Hz _] | [(_ & H1 & _) | (_ & Hf & Hp & _ & _ & ->)]]]].
  - congruence.
  - unfold is_finite in Hfx. by rewrite Hn, Hi in Hfx.
  - congruence.
  - apply float_eqb_one in H1. by rewrite H1 in Hb.
  - unfold call_pow.
    pose proof (pow2_underflow pf Hpf _ Hp Hb) as V.
    destruct (pow2_sign pf Hpf _ Hf Hp) as [_ He].
    destruct (c_pow2 (PrimFloat.abs x)) as [ix err]. cbn [fst snd] in *. subst ix.
    by destruct err.
Qed.
End Pow.

(** * Views and equivalent stresses *)

(** C5: for every six-component input the matrix returned by [stressTensor]
    is symmetric, [M[i][j] == M[j][i]] for all indices (both absent when an
    index is out of range), and it is 3 by 3. *)
Theorem stressTensor_symmetric {T : Type} (t : StressTensor T) :
  (∀ i j, entry (stressTensor t) i j = entry (stressTensor t) j i)
  ∧ length (stressTensor t) = 3
  ∧ Forall (λ row, length row = 3) (stressTensor t).
Proof.
  split; [|split].
  - intros i j. unfold entry, stressTensor.
    destruct i as [|[|[|i]]]; destruct j as [|[|[|j]]]; reflexivity.
  - reflexivity.
  - unfold stressTensor. repeat constructor.
Qed.

(** * The equivalent stresses in binary64 *)

Section Equivalent.
Context {pf : libm}.

Lemma finite_tensor_components (t : StressTensor float) :
  finite_tensor t →
  is_finite (sx t) = true ∧ is_finite (sy t) = true ∧ is_finite (sz t) = true
  ∧ is_finite (sxy t) = true ∧ is_finite (syz t) = true ∧ is_finite (szx t) = true.
Proof.
  destruct t. unfold finite_tensor. cbn. intros F.
  by repeat (apply Forall_cons in F as [? F]).
Qed.

(** The numbers [HuberStress] squares are not NaN on a real-valued tensor. *)
Lemma squared_not_nan (t : StressTensor float) :
  finite_tensor t → Forall (λ d, is_nan d = false) (squared_by_HuberStress t).
Proof.
  intros F. destruct (finite_tensor_components t F) as (? & ? & ? & ? & ? & ?).
  unfold squared_by_HuberStress, squared_of.
  repeat constructor; first [by apply float_sub_not_nan | by apply float_finite_not_nan].
Qed.

(** A call of [HuberStress] that returns has taken the six squares. *)
Lemma HuberStress_inv (t : StressTensor float) (r : float) :
  HuberStress t = Ok r →
  ∃ p1 p2 p3 p4 p5 p6,
    Forall2 (λ d p, py_pow2 d = Ok p) (squared_by_HuberStress t) [p1; p2; p3; p4; p5; p6]
    ∧ r = (np_sqrt (half * (p1 + p2 + p3) + of_int 3 * (p4 + p5 + p6)))%py.
Proof.
  unfold HuberStress, squared_by_HuberStress, squared_of. intros E.
  apply bind_Ok_inv in E as (p1 & E1 & E). apply bind_Ok_inv in E as (p2 & E2 & E).
  apply bind_Ok_inv in E as (p3 & E3 & E). apply bind_Ok_inv in E as (p4 & E4 & E).
  apply bind_Ok_inv in E as (p5 & E5 & E). apply bind_Ok_inv in E as (p6 & E6 & E).
  exists p1, p2, p3, p4, p5, p6. split; [by repeat constructor|congruence].
Qed.

(** An isotropic real-valued tensor has a Huber stress of zero. *)
Lemma HuberStress_isotropic_float (t : StressTensor float) :
  finite_tensor t → isotropic t → HuberStress t = Ok 0%float.
Proof.
  intros F (E1 & E2 & Z1 & Z2 & Z3).
  destruct (finite_tensor_components t F) as (Hx & Hy & Hz & _).
  pose proof (float_eqb_cycle _ _ _ E1 E2) as E3.
  unfold HuberStress.
  rewrite (float_pow2_zero (sx t - sy t)%py) by (by apply float_eqb_sub).
  rewrite (float_pow2_zero (sy t - sz t)%py) by (by apply float_eqb_sub).
  rewrite (float_pow2_zero (sz t - sx t)%py) by (by apply float_eqb_sub).
  rewrite (float_pow2_zero (sxy t)), (float_pow2_zero (syz t)), (float_pow2_zero (szx t))
    by done.
  reflexivity.
Qed.



Hypothesis Hpf : libm_contract pf.

Lemma HuberStress_only_overflow (t : StressTensor float) : only_overflow (HuberStress t).
Proof.
  unfold HuberStress.
  repeat (apply only_overflow_bind; [by apply float_pow2_raises|intros ?]).
  apply only_overflow_ret.
Qed.

Lemma calcMises_only_overflow (x y z xy yz zx : float) :
  only_overflow (_calcMises x y z xy yz zx).
Proof.
  unfold _calcMises.
  repeat (apply only_overflow_bind; [by apply float_pow2_raises|intros ?]).
  apply only_overflow_ret.
Qed.



(** The squares of a real-valued tensor are not negative. *)
Lemma squares_NN (ds ps : list float) :
  Forall (λ d, is_nan d = false) ds →
  Forall2 (λ d p, py_pow2 d = Ok p) ds ps →
  Forall (λ p, NN (Prim2SF p)) ps.
Proof.
  intros N P. induction P as [|d p ds ps E P IH]; [constructor|].
  apply Forall_cons in N as [Nd N]. constructor; [|by apply IH].
  by apply (float_pow2_NN Hpf d).
Qed.

Lemma squares_BIG (ds ps : list float) :
  Forall (λ d, is_nan d = false) ds →
  Forall2 (λ d p, py_pow2 d = Ok p) ds ps →
  Exists (λ d, PrimFloat.ltb (PrimFloat.abs d) 0x1p-500 = false) ds →
  Exists (λ p, BIG (-1001) (Prim2SF p)) ps.
Proof.
  intros N P. induction P as [|d p ds ps E P IH]; intros X.
  - by apply Exists_nil in X.
  - apply Forall_cons in N as [Nd N]. apply Exists_cons in X as [X|X].
    + left. by apply (float_pow2_BIG Hpf d).
    + right. by apply IH.
Qed.

Lemma HuberStress_nonneg (t : StressTensor float) (r : float) :
  finite_tensor t → HuberStress t = Ok r → PrimFloat.leb 0 r = true.
Proof.
  intros F E. destruct (HuberStress_inv t r E) as (p1 & p2 & p3 & p4 & p5 & p6 & P & ->).
  apply F_NN_leb, Huber_value_NN.
  eapply squares_NN; [|exact P]. by apply squared_not_nan.
Qed.

(** A Huber stress of zero: no difference of normals and no shear reaches
    [2^-500]. *)
Lemma HuberStress_zero_small (t : StressTensor float) (r : float) :
  finite_tensor t → HuberStress t = Ok r → PrimFloat.eqb r 0 = true →
  Forall (λ d, PrimFloat.ltb (PrimFloat.abs d) 0x1p-500 = true) (squared_by_HuberStress t).
Proof.
  intros F E Z. destruct (HuberStress_inv t r E) as (p1 & p2 & p3 & p4 & p5 & p6 & P & ->).
  pose proof (squared_not_nan t F) as N.
  apply Forall_forall. intros d Hd.
  destruct (PrimFloat.ltb (PrimFloat.abs d) 0x1p-500) eqn:L; [done|].
  assert (X : Exists (λ d, PrimFloat.ltb (PrimFloat.abs d) 0x1p-500 = false)
                (squared_by_HuberStress t)) by (apply Exists_exists; eauto).
  pose proof (Huber_value_BIG _ _ _ _ _ _ (squares_NN _ _ N P) (squares_BIG _ _ N P X)) as B.
  apply F_BIG_nonzero in B. congruence.
Qed.
(** Six squares that are all returned. *)
Lemma squares_return (ds : list float) :
  Forall (λ d, square_in_range d = true) ds →
  ∃ ps, Forall2 (λ d p, py_pow2 d = Ok p) ds ps.
Proof.
  induction 1 as [|d ds Hd _ [ps IH]]; [by exists []|].
  destruct (float_pow2_returns Hpf d Hd) as [p E].
  exists (p :: ps). by constructor.
Qed.

Lemma HuberStress_returns (t : StressTensor float) :
  Forall (λ d, square_in_range d = true) (squared_by_HuberStress t) →
  returns (HuberStress t).
Proof.
  intros F. destruct (squares_return _ F) as [ps P].
  unfold squared_by_HuberStress, squared_of in P. unfold HuberStress.
  repeat (apply Forall2_cons_inv_l in P as (? & ? & -> & P & ->); cbn [mbind result_bind]).
  by eexists.
Qed.



Lemma in_range_small_zero (d : float) :
  square_in_range d = true → PrimFloat.ltb (PrimFloat.abs d) 0x1p-500 = true →
  PrimFloat.eqb d 0 = true.
Proof.
  unfold square_in_range. destruct (PrimFloat.eqb d 0); [done|]. cbn [orb].
  intros [Hb _]%andb_prop L.
  by rewrite (float_ltb_not_leb _ 0x1p-500 _ _ eq_refl L) in Hb.
Qed.

(** In range a Huber stress of zero is that of an isotropic tensor. *)
Lemma HuberStress_zero_isotropic (t : StressTensor float) (r : float) :
  finite_tensor t →
  Forall (λ d, square_in_range d = true) (squared_by_HuberStress t) →
  HuberStress t = Ok r → PrimFloat.eqb r 0 = true → isotropic t.
Proof.
  intros F I E Z.
  pose proof (HuberStress_zero_small t r F E Z) as S.
  destruct (finite_tensor_components t F) as (Hx & Hy & Hz & _).
  unfold squared_by_HuberStress, squared_of in I, S.
  repeat (apply Forall_cons in I as [? I]). repeat (apply Forall_cons in S as [? S]).
  unfold isotropic. cbn.
  repeat split; first [by apply float_sub_eq0, in_range_small_zero
                      | by apply in_range_small_zero].
Qed.
End Equivalent.







(** C6, as the code has it: in binary64, for a tensor of real-valued
    components and every C library meeting the contract, [HuberStress]
    raises nothing but [OverflowError]; a value it returns is not negative
    (and not NaN); it returns 0 when [sx == sy == sz] and
    [sxy == syz == szx == 0]; when it returns a value equal to 0, each of
    the three differences of normals and each shear is below [2^-500] in
    absolute value; and when each of these six numbers is a zero or between
    [2^-500] and [2^500] in absolute value, it returns, and the value is
    equal to 0 if and only if [sx == sy == sz] and
    [sxy == syz == szx == 0]. *)
Theorem HuberStress_zero_iff_isotropic (pf : libm) (t : StressTensor float) :
  libm_contract pf → finite_tensor t →
  only_overflow (HuberStress t)
  ∧ (∀ r, HuberStress t = Ok r → PrimFloat.leb 0 r = true)
  ∧ (isotropic t → HuberStress t = Ok 0%float)
  ∧ (∀ r, HuberStress t = Ok r → (r == of_int 0)%py = true →
       Forall (λ d, PrimFloat.ltb (PrimFloat.abs d) 0x1p-500 = true)
              (squared_by_HuberStress t))
  ∧ (Forall (λ d, square_in_range d = true) (squared_by_HuberStress t) →
     ∃ r, HuberStress t = Ok r ∧ ((r == of_int 0)%py = true ↔ isotropic t)).
Proof.
  intros Hpf F. split; [by apply HuberStress_only_overflow|].
  split; [intros r; by apply HuberStress_nonneg|].
  split; [by apply HuberStress_isotropic_float|].
  split; [intros r; by apply HuberStress_zero_small|].
  intros I. destruct (HuberStress_returns Hpf t I) as [r E]. exists r.
  split; [done|]. split.
  - by apply (HuberStress_zero_isotropic Hpf).
  - intros Hi. rewrite (HuberStress_isotropic_float t F Hi) in E. by injection E as <-.
Qed.

Lemma HuberStress_zero_iff_isotropic_witness :
  let pf : libm := correctly_rounded in
  let t := (mkStressTensor 100 0 0 0 0 0)%float in
  only_overflow (HuberStress t)
  ∧ (∀ r, HuberStress t = Ok r → PrimFloat.leb 0 r = true)
  ∧ (isotropic t → HuberStress t = Ok 0%float)
  ∧ (∀ r, HuberStress t = Ok r → (r == of_int 0)%py = true →
       Forall (λ d, PrimFloat.ltb (PrimFloat.abs d) 0x1p-500 = true)
              (squared_by_HuberStress t))
  ∧ ∃ r, HuberStress t = Ok r ∧ ((r == of_int 0)%py = true ↔ isotropic t).
Proof.
  intros pf t.
  assert (F : finite_tensor t) by (unfold finite_tensor; cbn; repeat constructor).
  destruct (HuberStress_zero_iff_isotropic correctly_rounded t correctly_rounded_contract F)
    as (H1 & H2 & H3 & H4 & H5).
  repeat (split; [assumption|]).
  apply H5; repeat constructor.
Defined.

(** C6 fails in binary64.  From left to right: the square of [2^-600]
    underflows to 0, so a tensor with that shear has a Huber stress of 0
    although [sxy == 0] is false.  From right to left, and for the sign, on
    a tensor that is not real-valued: with three infinite normals
    [sx == sy == sz] holds and the value is NaN, neither zero nor
    non-negative. *)
Lemma HuberStress_zero_counterexample :
  let t := (mkStressTensor 0 0 0 0x1p-600 0 0)%float in
  let u := (mkStressTensor infinity infinity infinity 0 0 0)%float in
  ((∀ pf : libm, libm_contract pf → HuberStress t = Ok 0%float)
   ∧ (sxy t == of_int 0)%py = false)
  ∧ (isotropic u
     ∧ (∀ pf : libm, HuberStress u = Ok nan)
     ∧ (nan == of_int 0)%py = false ∧ PrimFloat.leb 0 nan = false).
Proof.
  cbv zeta. split; split.
  - intros pf Hpf. unfold HuberStress. cbn [sx sy sz sxy syz szx].
    rewrite (float_pow2_underflow Hpf 0x1p-600) by reflexivity. reflexivity.
  - reflexivity.
  - by repeat split.
  - split; [intros pf; reflexivity|split; reflexivity].
Qed.




(** * Scaling in place and addition *)

Section HeapFacts.
Context {T : Type} `{Scalar T}.
Local Open Scope py_scope.
Implicit Types (h : gmap loc (StressTensor T)) (t : StressTensor T).

Lemma bind_ok {A B} (m : state (gmap loc (StressTensor T)) A)
    (f : A → state (gmap loc (StressTensor T)) B) h a h' :
  m h = Ok (a, h') → (m ≫= f) h = f a h'.
Proof. unfold mbind, state_bind. by intros ->. Qed.

Lemma getattr_ok h l t a :
  h !! l = Some t → getattr l a h = Ok (get_attr a t, h).
Proof. unfold getattr. by intros ->. Qed.

Lemma setattr_ok h l t a v :
  h !! l = Some t → setattr l a v h = Ok ((), <[l := set_attr a v t]> h).
Proof. unfold setattr. by intros ->. Qed.

(** One statement [self.a = self.a * k], followed by the rest of the body. *)
Lemma scale_attr_ok h l t a k (rest : state (gmap loc (StressTensor T)) unit) :
  h !! l = Some t →
  (v ← getattr l a; setattr l a (v * k);; rest) h
  = rest (<[l := set_attr a (get_attr a t * k) t]> h).
Proof.
  intros E. rewrite (bind_ok _ _ _ _ _ (getattr_ok _ _ _ a E)).
  by rewrite (bind_ok _ _ _ _ _ (setattr_ok _ _ _ a _ E)).
Qed.

(** The six statements of [applyComponentKt] leave the receiver with each
    component multiplied by its factor, and touch no other object. *)
Lemma applyComponentKt_ok h self t k1 k2 k3 k4 k5 k6 :
  h !! self = Some t →
  applyComponentKt self k1 k2 k3 k4 k5 k6 h
  = Ok ((), <[self := mkStressTensor
               (sx t * default (of_int 1) k1) (sy t * default (of_int 1) k2)
               (sz t * default (of_int 1) k3) (sxy t * default (of_int 1) k4)
               (syz t * default (of_int 1) k5) (szx t * default (of_int 1) k6)]> h).
Proof.
  intros E. unfold applyComponentKt. cbv zeta.
  do 5 (erewrite scale_attr_ok; [|first [exact E | apply lookup_insert_eq]]).
  erewrite bind_ok; [|apply getattr_ok, lookup_insert_eq].
  erewrite setattr_ok; [|apply lookup_insert_eq].
  by rewrite !insert_insert_eq.
Qed.

Lemma scaling_from_laws :
  (∀ x : T, x * of_int 1 = x) → (∀ x y : T, x * y = y * x) →
  scaling_as_specified.
Proof.
  intros mul_1 mul_comm h self t E.
  rewrite !(applyComponentKt_ok _ _ _ _ _ _ _ _ _ E). cbn [default].
  rewrite !mul_1. destruct t as [x y z xy yz zx]; cbn.
  split; [|split].
  - by rewrite insert_id.
  - by rewrite insert_id.
  - intros k. rewrite (applyComponentKt_ok _ _ _ _ _ _ _ _ _ E). cbn.
    by rewrite !mul_1, (mul_comm x k).
Qed.

Lemma new_fresh h : h !! fresh (dom h) = None.
Proof. apply not_elem_of_dom, is_fresh. Qed.

Lemma add_ok h a b ta tb :
  h !! a = Some ta → h !! b = Some tb →
  __add__ a b h = Ok (fresh (dom h), <[fresh (dom h) := tensor_sum ta tb]> h).
Proof.
  intros Ea Eb. unfold __add__.
  do 6 (erewrite bind_ok; [|by apply getattr_ok];
        erewrite bind_ok; [|by apply getattr_ok]; cbv zeta).
  done.
Qed.
End HeapFacts.

(** C8: [applyComponentKt] with all six factors equal to 1 leaves every
    component of the tensor unchanged, and a factor [k] applied to [sx]
    alone makes the new [sx] equal [k] times the old one while [sy], [sz],
    [sxy], [syz] and [szx] stay unchanged; in exact arithmetic and in
    binary64. *)
Theorem applyComponentKt_scaling :
  scaling_as_specified (T := R) ∧ scaling_as_specified (T := float).
Proof.
  split; apply scaling_from_laws.
  - intros x. cbn. lra.
  - intros x y. cbn. lra.
  - apply float_mul_1_r.
  - apply float_mul_comm.
Qed.

Lemma applyComponentKt_scaling_witness :
  applyComponentKt 1%positive (Some 2.5%float) None None None None None
    {[ 1%positive := (mkStressTensor 100 20 (-30) 4 5 6)%float ]}
  = Ok ((), <[ 1%positive := (mkStressTensor (2.5 * 100) 20 (-30) 4 5 6)%float ]>
              {[ 1%positive := (mkStressTensor 100 20 (-30) 4 5 6)%float ]}).
Proof.
  apply (proj2 (proj2 (proj2 applyComponentKt_scaling
           {[ 1%positive := (mkStressTensor 100 20 (-30) 4 5 6)%float ]} 1%positive
           (mkStressTensor 100 20 (-30) 4 5 6)%float (lookup_singleton_eq _ _)))).
Defined.

(** C9: for every pair of tensors [a + b] is a new [StressTensor] whose six
    components are the sums [a_i + b_i], and the components of neither
    operand (nor of any other object) are changed; [a] and [b] may be the
    same object. *)
Theorem add_componentwise {T : Type} `{Scalar T} : add_as_specified.
Proof.
  intros h a b ta tb Ea Eb.
  pose proof (new_fresh h) as Fr.
  exists (fresh (dom h)), (<[fresh (dom h) := tensor_sum ta tb]> h).
  assert (Na : fresh (dom h) ≠ a) by congruence.
  assert (Nb : fresh (dom h) ≠ b) by congruence.
  split; [by apply add_ok|]. split; [done|].
  split; [apply lookup_insert_eq|].
  split; [by rewrite lookup_insert_ne|].
  split; [by rewrite lookup_insert_ne|].
  intros l Hl. by rewrite lookup_insert_ne.
Qed.

Lemma add_componentwise_witness :
  ∃ (r : loc) (h' : gmap loc (StressTensor float)),
    __add__ 1%positive 2%positive
      {[ 1%positive := (mkStressTensor 1 2 3 4 5 6)%float;
         2%positive := (mkStressTensor 10 20 30 40 50 60)%float ]} = Ok (r, h')
    ∧ ({[ 1%positive := (mkStressTensor 1 2 3 4 5 6)%float;
          2%positive := (mkStressTensor 10 20 30 40 50 60)%float ]}
         : gmap loc (StressTensor float)) !! r = None
    ∧ h' !! r = Some (tensor_sum (mkStressTensor 1 2 3 4 5 6)%float
                                 (mkStressTensor 10 20 30 40 50 60)%float)
    ∧ h' !! 1%positive = Some (mkStressTensor 1 2 3 4 5 6)%float
    ∧ h' !! 2%positive = Some (mkStressTensor 10 20 30 40 50 60)%float
    ∧ ∀ l, l ≠ r → h' !! l
        = ({[ 1%positive := (mkStressTensor 1 2 3 4 5 6)%float;
              2%positive := (mkStressTensor 10 20 30 40 50 60)%float ]}
             : gmap loc (StressTensor float)) !! l.
Proof.
  apply (@add_componentwise float float_scalar); reflexivity.
Defined.

(** * Eigenvalue accessors *)

Section Override.
Context {T : Type} `{Scalar T} `{Pow2 T}.
Variable eigvals : list (list T) → result (list T).

(** Both definitions of [firstPrincipal] are executed; the namespace keeps
    the second. *)
Lemma class_namespace_firstPrincipal :
  class_namespace eigvals !! "firstPrincipal"%string
  = Some (λ self, Number <$> firstPrincipal_def2 eigvals self).
Proof.
  unfold class_namespace, property_defs. cbn [foldl fst snd].
  rewrite lookup_insert_ne by done. rewrite lookup_insert_ne by done.
  apply lookup_insert_eq.
Qed.

Lemma firstPrincipal_is_def2 (self : StressTensor T) :
  firstPrincipal eigvals self = Number <$> firstPrincipal_def2 eigvals self.
Proof.
  unfold firstPrincipal, get_property. by rewrite class_namespace_firstPrincipal.
Qed.
End Override.

(** C2: because the second of the two definitions named [firstPrincipal]
    replaces the first, the accessor returns [min(principals)] for every
    tensor, whatever the eigen-solver; over the reals that value is the
    least principal, and it is the maximum only when all principals are
    equal. *)
Theorem firstPrincipal_returns_minimum :
  (∀ (T : Type) `(Scalar T) `(Pow2 T) (eigvals : list (list T) → result (list T))
     (self : StressTensor T),
     firstPrincipal eigvals self = Number <$> (principals eigvals self ≫= py_min))
  ∧ (∀ (eigvals : list (list R) → result (list R)) (self : StressTensor R)
       (xs : list R),
       principals eigvals self = Ok xs → xs ≠ [] →
       minimum_of_principals eigvals self xs).
Proof.
  split.
  - intros T ? ? eigvals self. apply firstPrincipal_is_def2.
  - intros eigvals self xs E Hne. unfold minimum_of_principals.
    rewrite firstPrincipal_is_def2. unfold firstPrincipal_def2, firstPrincipal_def1.
    rewrite E. destruct xs as [|x0 xs]; [done|]. cbn.
    destruct (min_from_R x0 xs) as [Hin Hle].
    destruct (max_from_R x0 xs) as [Hin' Hle'].
    exists (min_from x0 xs). repeat split; try done.
    exists (max_from x0 xs). repeat split.
    + by apply Hle.
    + intros Em x Hx. specialize (Hle x Hx). specialize (Hle' x Hx). lra.
Qed.

Lemma firstPrincipal_returns_minimum_witness :
  minimum_of_principals (λ _, Ok [3; 1; 2]%R)
    (mkStressTensor 3 1 2 0 0 0)%R [3; 1; 2]%R.
Proof.
  apply (proj2 firstPrincipal_returns_minimum (λ _, Ok [3; 1; 2]%R)
               (mkStressTensor 3 1 2 0 0 0)%R [3; 1; 2]%R);
    [reflexivity | discriminate].
Defined.

(** C4 does not hold of the code: [eigvals] returns the eigenvalues alone,
    one per row of the matrix, so unpacking its three values into
    [val, vect] raises and [eigenVector] returns for no tensor. *)
Theorem eigenVector_always_raises {T : Type} `{Scalar T}
    (eigvals : list (list T) → result (list T)) :
  (∀ m xs, eigvals m = Ok xs → length xs = length m) →
  ∀ self : StressTensor T,
    raises (eigenVector eigvals self)
    ∧ (returns (eigvals (stressTensor self)) → eigenVector eigvals self = Raise ValueError).
Proof.
  intros shape self. unfold eigenVector.
  destruct (eigvals (stressTensor self)) as [xs|e] eqn:E; cbn.
  - apply shape in E. cbn in E.
    destruct xs as [|a [|b [|c [|d xs]]]]; try discriminate E.
    split; [by eexists | done].
  - split; [by eexists|]. intros [? ?]. discriminate.
Qed.

Lemma eigenVector_always_raises_witness :
  raises (eigenVector (λ m, Ok ((λ _, 0%R) <$> m)) (mkStressTensor 3 1 2 0 0 0)%R)
  ∧ (returns ((λ m : list (list R), Ok ((λ _, 0%R) <$> m))
                (stressTensor (mkStressTensor 3 1 2 0 0 0)%R)) →
     eigenVector (λ m, Ok ((λ _, 0%R) <$> m)) (mkStressTensor 3 1 2 0 0 0)%R
     = Raise ValueError).
Proof.
  apply (eigenVector_always_raises (T := R) (λ m, Ok ((λ _, 0%R) <$> m))).
  intros m xs [= <-]. apply length_fmap.
Defined.

(** * Equality *)

Section EqFacts.
Context {T : Type} `{Scalar T}.
Local Open Scope py_scope.

Lemma same_present self value a v :
  value !! attr_name a = Some v → same self value a = Ok (get_attr a self == v).
Proof. unfold same, getattr_obj. by intros ->. Qed.

Lemma same_missing self value a :
  value !! attr_name a = None → same self value a = Raise (AttributeError (attr_name a)).
Proof. unfold same, getattr_obj. by intros ->. Qed.

Lemma py_and_true_r (r : result bool) : py_and r (Ok true) = r.
Proof. by destruct r as [[]|]. Qed.

(** [__eq__] is the chain over the six attributes in source order. *)
Lemma eq_and_chain self value :
  __eq__ self value = and_chain self value attrs.
Proof.
  unfold __eq__. cbn [and_chain attrs]. rewrite py_and_true_r.
  by destruct (py_and _ _) as [[]|].
Qed.

Lemma and_chain_first_missing self value pre a post :
  (∀ b, b ∈ pre → is_Some (value !! attr_name b)) →
  value !! attr_name a = None →
  and_chain self value (pre ++ a :: post)
  = if all_same self value pre then Raise (AttributeError (attr_name a)) else Ok false.
Proof.
  intros Hpre Hmiss. induction pre as [|b pre IH]; cbn.
  - by rewrite (same_missing _ _ _ Hmiss).
  - destruct (Hpre b (list_elem_of_here _ _)) as [v E].
    rewrite (same_present _ _ _ _ E), E. cbn.
    destruct (get_attr b self == v); cbn; [|done].
    apply IH. intros c Hc. apply Hpre. by right.
Qed.

Lemma and_chain_never_true self value l :
  (∃ a, a ∈ l ∧ value !! attr_name a = None) →
  and_chain self value l ≠ Ok true.
Proof.
  induction l as [|b l IH]; intros (a & Ha & Hmiss).
  - by apply elem_of_nil in Ha.
  - cbn. destruct (value !! attr_name b) as [v|] eqn:E.
    + rewrite (same_present _ _ _ _ E). cbn.
      destruct (get_attr b self == v); [|done].
      apply IH. exists a. split; [|done].
      apply elem_of_cons in Ha as [-> | Ha]; [congruence | done].
    + by rewrite (same_missing _ _ _ E).
Qed.

Lemma as_object_lookup (t : StressTensor T) (a : attr) :
  as_object t !! attr_name a = Some (get_attr a t).
Proof. destruct a; reflexivity. Qed.

(** Between two tensors [==] returns, and is True exactly when the six
    pairs of components compare equal. *)
Lemma eq_tensors (a b : StressTensor T) :
  __eq__ a (as_object b)
  = Ok ((sx a == sx b) && (sy a == sy b) && (sz a == sz b)
        && (sxy a == sxy b) && (syz a == syz b) && (szx a == szx b)).
Proof.
  unfold __eq__, same, getattr_obj.
  rewrite !as_object_lookup. cbn.
  by repeat (match goal with |- context [(?x == ?y)%py] => destruct (x == y)%py end; cbn).
Qed.

Lemma and_chain_all_present self value l :
  (∀ b, b ∈ l → is_Some (value !! attr_name b)) →
  and_chain self value l = Ok (all_same self value l).
Proof.
  intros Hl. induction l as [|b l IH]; cbn; [done|].
  destruct (Hl b (list_elem_of_here _ _)) as [v E].
  rewrite (same_present _ _ _ _ E), E. cbn.
  destruct (get_attr b self == v); cbn; [|done].
  apply IH. intros c Hc. apply Hl. by right.
Qed.
End EqFacts.

(** C10, as the code has it: against an operand that lacks one of the six
    attributes, [==] raises the attribute-access error for the first missing
    attribute (in the order sx, sy, sz, sxy, syz, szx) when every attribute
    before it compares equal, and returns False, without reaching the
    missing one, when an earlier attribute differs; it never returns True;
    an operand without [sx] always raises; on an operand exposing all six
    the comparison returns. *)
Theorem eq_on_partial_operand {T : Type} `{Scalar T}
    (self : StressTensor T) (value : gmap string T) :
  (∀ pre a post,
     attrs = pre ++ a :: post →
     (∀ b, b ∈ pre → is_Some (value !! attr_name b)) →
     value !! attr_name a = None →
     __eq__ self value
     = if all_same self value pre then Raise (AttributeError (attr_name a)) else Ok false)
  ∧ ((∃ a, a ∈ attrs ∧ value !! attr_name a = None) → __eq__ self value ≠ Ok true)
  ∧ (value !! "sx"%string = None → __eq__ self value = Raise (AttributeError "sx"))
  ∧ ((∀ b, b ∈ attrs → is_Some (value !! attr_name b)) →
     __eq__ self value = Ok (all_same self value attrs)).
Proof.
  rewrite eq_and_chain. split; [|split; [apply and_chain_never_true|split]].
  - intros pre a post -> Hpre Hmiss. by apply and_chain_first_missing.
  - intros Hmiss.
    apply (and_chain_first_missing self value [] Sx [Sy; Sz; Sxy; Syz; Szx]); [|done].
    intros b Hb. by apply elem_of_nil in Hb.
  - apply and_chain_all_present.
Qed.

Lemma eq_on_partial_operand_witness :
  __eq__ (mkStressTensor 1 2 3 0 0 0)%float
         ({[ "sx"%string := 1%float; "sy"%string := 2%float ]} : gmap string float)
  = Raise (AttributeError "sz").
Proof.
  etrans.
  - apply (proj1 (eq_on_partial_operand (mkStressTensor 1 2 3 0 0 0)%float
                    ({[ "sx"%string := 1%float; "sy"%string := 2%float ]}))
                 [Sx; Sy] Sz [Sxy; Syz; Szx]).
    + reflexivity.
    + intros b Hb. apply elem_of_cons in Hb as [-> | Hb]; [by eexists|].
      apply list_elem_of_singleton in Hb as ->. by eexists.
    + reflexivity.
  - vm_compute. reflexivity.
Defined.

(** C10 fails when an attribute compared earlier differs: the operand has
    [sx] only, [self.sx == value.sx] is False, the chain stops there and the
    comparison returns False although [sy] is missing. *)
Lemma eq_short_circuit_counterexample :
  let self := (mkStressTensor 1 0 0 0 0 0)%float in
  let value : gmap string float := {[ "sx"%string := 2%float ]} in
  value !! "sy"%string = None ∧ __eq__ self value = Ok false.
Proof.
  cbv zeta. split.
  - reflexivity.
  - vm_compute. reflexivity.
Qed.

(** * Further properties of scaling and addition *)

(** X7: for any arithmetic and any six factors, [applyComponentKt]
    multiplies each component of the receiver by its own factor, leaves
    every other object as it was, and creates or deletes no object. *)
Theorem applyComponentKt_effect {T : Type} `{Scalar T}
    (h : gmap loc (StressTensor T)) (self : loc) (t : StressTensor T)
    (k1 k2 k3 k4 k5 k6 : T) :
  h !! self = Some t →
  ∃ h',
    applyComponentKt self (Some k1) (Some k2) (Some k3) (Some k4) (Some k5) (Some k6) h
    = Ok ((), h')
    ∧ h' !! self = Some (mkStressTensor (sx t * k1) (sy t * k2) (sz t * k3)
                                        (sxy t * k4) (syz t * k5) (szx t * k6))%py
    ∧ (∀ l, l ≠ self → h' !! l = h !! l)
    ∧ dom h' = dom h.
Proof.
  intros E. eexists. split; [by apply applyComponentKt_ok|]. cbn [default].
  split; [apply lookup_insert_eq|]. split.
  - intros l Hl. by rewrite lookup_insert_ne.
  - rewrite dom_insert_L. apply subseteq_union_1_L, singleton_subseteq_l.
    by apply elem_of_dom_2 in E.
Qed.

Lemma applyComponentKt_effect_witness :
  ∃ h' : gmap loc (StressTensor float),
    applyComponentKt 1%positive (Some 2%float) (Some 3%float) (Some 1%float)
      (Some 0%float) (Some (-1)%float) (Some 0.5%float)
      {[ 1%positive := (mkStressTensor 10 20 30 40 50 60)%float ]} = Ok ((), h')
    ∧ h' !! 1%positive
      = Some (mkStressTensor (10 * 2) (20 * 3) (30 * 1) (40 * 0) (50 * -1) (60 * 0.5))%float
    ∧ (∀ l, l ≠ 1%positive →
         h' !! l = ({[ 1%positive := (mkStressTensor 10 20 30 40 50 60)%float ]}
                      : gmap loc (StressTensor float)) !! l)
    ∧ dom h' = dom ({[ 1%positive := (mkStressTensor 10 20 30 40 50 60)%float ]}
                      : gmap loc (StressTensor float)).
Proof.
  exact (applyComponentKt_effect (T := float)
           {[ 1%positive := (mkStressTensor 10 20 30 40 50 60)%float ]} 1%positive
           (mkStressTensor 10 20 30 40 50 60)%float
           2%float 3%float 1%float 0%float (-1)%float 0.5%float eq_refl).
Defined.

Lemma float_add_comm (x y : float) : (x + y = y + x)%float.
Proof.
  apply Prim2SF_inj. rewrite !add_spec. unfold SF64add, SFadd.
  destruct (Prim2SF x) as [[]|[]| |s m e], (Prim2SF y) as [[]|[]| |s' m' e'];
    try reflexivity.
  cbv zeta. by rewrite (Z.min_comm e e'), Z.add_comm.
Qed.

Lemma add_commutes_from_law {T : Type} `{Scalar T} :
  (∀ x y : T, x + y = y + x)%py → add_commutes.
Proof.
  intros comm h a b [ta Ea] [tb Eb].
  rewrite (add_ok h a b ta tb Ea Eb), (add_ok h b a tb ta Eb Ea).
  unfold tensor_sum.
  by rewrite (comm (sx ta)), (comm (sy ta)), (comm (sz ta)),
     (comm (sxy ta)), (comm (syz ta)), (comm (szx ta)).
Qed.

(** X11: [a + b] and [b + a] return the same new tensor, in exact
    arithmetic and in binary64. *)
Theorem add_commutative : add_commutes (T := R) ∧ add_commutes (T := float).
Proof.
  split; apply add_commutes_from_law.
  - intros x y. cbn. lra.
  - apply float_add_comm.
Qed.

Lemma add_commutative_witness :
  __add__ 1%positive 2%positive
    ({[ 1%positive := (mkStressTensor 0.5 2 3 4 5 6)%float;
        2%positive := (mkStressTensor 1e16 20 30 40 50 60)%float ]}
       : gmap loc (StressTensor float))
  = __add__ 2%positive 1%positive
      ({[ 1%positive := (mkStressTensor 0.5 2 3 4 5 6)%float;
          2%positive := (mkStressTensor 1e16 20 30 40 50 60)%float ]}
         : gmap loc (StressTensor float)).
Proof.
  apply (proj2 add_commutative); by eexists.
Defined.

(** * Further properties of the eigenvalue accessors *)

(** X15: an exception of the eigen-solver reaches the caller unchanged
    through every accessor built on it: [principals], [firstPrincipal],
    [secondPrincipal] and [eigenVector]. *)
Theorem solver_failure_propagates {T : Type} `{Scalar T} `{Pow2 T}
    (eigvals : list (list T) → result (list T)) (self : StressTensor T) (e : exn) :
  eigvals (stressTensor self) = Raise e →
  principals eigvals self = Raise e
  ∧ get_property eigvals "principals" self = Raise e
  ∧ firstPrincipal eigvals self = Raise e
  ∧ secondPrincipal eigvals self = Raise e
  ∧ eigenVector eigvals self = Raise e.
Proof.
  intros E. rewrite firstPrincipal_is_def2.
  unfold firstPrincipal_def2, secondPrincipal, eigenVector, get_property, principals.
  rewrite E. repeat split; try reflexivity.
  unfold class_namespace, property_defs. cbn [foldl fst snd].
  do 5 (rewrite lookup_insert_ne by done). rewrite lookup_insert_eq.
  unfold principals. by rewrite E.
Qed.

Lemma solver_failure_propagates_witness :
  principals (λ _ : list (list R), Raise LinAlgError) (mkStressTensor 1 2 3 0 0 0)%R
  = Raise LinAlgError
  ∧ get_property (λ _ : list (list R), Raise LinAlgError) "principals"
      (mkStressTensor 1 2 3 0 0 0)%R = Raise LinAlgError
  ∧ firstPrincipal (λ _ : list (list R), Raise LinAlgError) (mkStressTensor 1 2 3 0 0 0)%R
    = Raise LinAlgError
  ∧ secondPrincipal (λ _ : list (list R), Raise LinAlgError) (mkStressTensor 1 2 3 0 0 0)%R
    = Raise LinAlgError
  ∧ eigenVector (λ _ : list (list R), Raise LinAlgError) (mkStressTensor 1 2 3 0 0 0)%R
    = Raise LinAlgError.
Proof.
  apply (solver_failure_propagates (T := R) (λ _, Raise LinAlgError)). reflexivity.
Defined.

(** X16: when the solver returns one eigenvalue per row, [secondPrincipal]
    returns whenever the solver does (the index 1 is in range), and over the
    reals its value lies between [firstPrincipal], the minimum, and the
    maximum of the principals; it is the solver's second value, not a value
    chosen by size. *)
Theorem secondPrincipal_between (eigvals : list (list R) → result (list R))
    (self : StressTensor R) :
  (∀ m xs, eigvals m = Ok xs → length xs = length m) →
  returns (eigvals (stressTensor self)) →
  ∃ (xs : list R) (lo mid hi : R),
    principals eigvals self = Ok xs
    ∧ xs !! 1 = Some mid
    ∧ firstPrincipal eigvals self = Ok (Number lo)
    ∧ secondPrincipal eigvals self = Ok mid
    ∧ py_max xs = Ok hi
    ∧ (lo <= mid <= hi)%R.
Proof.
  intros shape [xs E]. pose proof (shape _ _ E) as L. cbn in L.
  rewrite firstPrincipal_is_def2.
  unfold firstPrincipal_def2, secondPrincipal, principals.
  rewrite E. destruct xs as [|x0 [|x1 xs]]; try discriminate L. cbn.
  destruct (min_from_R x0 (x1 :: xs)) as [_ Hmin].
  destruct (max_from_R x0 (x1 :: xs)) as [_ Hmax].
  exists (x0 :: x1 :: xs), (min_from x0 (x1 :: xs)), x1, (max_from x0 (x1 :: xs)).
  repeat split; try reflexivity.
  - apply Hmin. right; left.
  - apply Hmax. right; left.
Qed.

Lemma secondPrincipal_between_witness :
  ∃ (xs : list R) (lo mid hi : R),
    principals (λ m, Ok ((λ row, default 0%R (head row)) <$> m))
      (mkStressTensor 3 1 2 0 0 0)%R = Ok xs
    ∧ xs !! 1 = Some mid
    ∧ firstPrincipal (λ m, Ok ((λ row, default 0%R (head row)) <$> m))
        (mkStressTensor 3 1 2 0 0 0)%R = Ok (Number lo)
    ∧ secondPrincipal (λ m, Ok ((λ row, default 0%R (head row)) <$> m))
        (mkStressTensor 3 1 2 0 0 0)%R = Ok mid
    ∧ py_max xs = Ok hi
    ∧ (lo <= mid <= hi)%R.
Proof.
  apply (secondPrincipal_between (λ m, Ok ((λ row, default 0%R (head row)) <$> m))).
  - intros m xs [= <-]. apply length_fmap.
  - by eexists.
Defined.

(** * Further properties of equality and of the views *)

Lemma R_py_eq (x y : R) : (x == y)%py = true ↔ x = y.
Proof. cbn. destruct (Req_dec_T x y); split; congruence. Qed.

Lemma float_eqb_refl (x : float) : PrimFloat.eqb x x = negb (is_nan x).
Proof. unfold is_nan. by rewrite negb_involutive. Qed.

Lemma float_eqb_sym (x y : float) : PrimFloat.eqb x y = PrimFloat.eqb y x.
Proof.
  rewrite !FloatAxioms.eqb_spec.
  destruct (SFeqb (Prim2SF x) (Prim2SF y)) eqn:E1, (SFeqb (Prim2SF y) (Prim2SF x)) eqn:E2;
    try reflexivity;
    destruct (Prim2SF x) as [[]|[]| |[] mx ex], (Prim2SF y) as [[]|[]| |[] my ey];
    try discriminate E1; try discriminate E2.
  all: first [ apply SFeqb_finite in E1 as (? & -> & ->)
             | apply SFeqb_finite in E2 as (? & -> & ->) ].
  all: first [ by rewrite SFeqb_finite_refl in E2 | by rewrite SFeqb_finite_refl in E1 ].
Qed.

(** X17: over the reals [==] between two tensors always returns, True
    exactly when the six components are pairwise equal and False exactly
    when some component differs. *)
Theorem eq_structural (a b : StressTensor R) :
  (∃ r, __eq__ a (as_object b) = Ok r)
  ∧ (__eq__ a (as_object b) = Ok true ↔ a = b)
  ∧ (__eq__ a (as_object b) = Ok false ↔ a ≠ b).
Proof.
  rewrite eq_tensors.
  assert (E : ((sx a == sx b) && (sy a == sy b) && (sz a == sz b)
               && (sxy a == sxy b) && (syz a == syz b) && (szx a == szx b))%py = true
              ↔ a = b).
  { rewrite !andb_true_iff, !R_py_eq. destruct a, b; cbn. split.
    - intros (((((-> & ->) & ->) & ->) & ->) & ->). reflexivity.
    - intros [= -> -> -> -> -> ->]. repeat split. }
  split; [by eexists|]. split.
  - rewrite <- E. split; congruence.
  - rewrite <- E. destruct (_ && _); split; congruence.
Qed.

(** X18: in binary64 a tensor compared with itself gives True exactly when
    none of its six components is NaN; with a NaN component [t == t] is
    False. *)
Theorem eq_self_float (t : StressTensor float) :
  __eq__ t (as_object t) = Ok (forallb (λ x, negb (is_nan x)) (stressComponents t)).
Proof.
  rewrite eq_tensors. cbn. rewrite !float_eqb_refl, andb_true_r.
  by rewrite !andb_assoc.
Qed.

(** X19: [a == b] and [b == a] give the same answer for two tensors, in
    exact arithmetic and in binary64. *)
Theorem eq_symmetric :
  (∀ a b : StressTensor R, __eq__ a (as_object b) = __eq__ b (as_object a))
  ∧ (∀ a b : StressTensor float, __eq__ a (as_object b) = __eq__ b (as_object a)).
Proof.
  split; intros a b; rewrite !eq_tensors; cbn.
  - by repeat (match goal with |- context [Req_dec_T ?x ?y] =>
                 destruct (Req_dec_T x y), (Req_dec_T y x); try congruence end; cbn).
  - by rewrite (float_eqb_sym (sx a)), (float_eqb_sym (sy a)), (float_eqb_sym (sz a)),
       (float_eqb_sym (sxy a)), (float_eqb_sym (syz a)), (float_eqb_sym (szx a)).
Qed.

(** X20: the two views lose nothing: the tensor built from the six values
    of [t.stressComponents] is [t] again, tensors with the same component list or the same matrix
    are the same tensor, and the component list is read off the matrix at
    [0][0], [1][1], [2][2], [0][1], [1][2], [2][0]. *)
Theorem views_round_trip {T : Type} `{Scalar T} (t t' : StressTensor T) :
  ('(a, b, c, d, e, f) ← unpack6 (stressComponents t);
     Ok (__init__ (Some a) (Some b) (Some c) (Some d) (Some e) (Some f))) = Ok t
  ∧ (stressComponents t = stressComponents t' → t = t')
  ∧ (stressTensor t = stressTensor t' → t = t')
  ∧ [entry (stressTensor t) 0 0; entry (stressTensor t) 1 1; entry (stressTensor t) 2 2;
     entry (stressTensor t) 0 1; entry (stressTensor t) 1 2; entry (stressTensor t) 2 0]
    = Some <$> stressComponents t.
Proof.
  destruct t, t'. cbn. repeat split.
  - intros [=]. by subst.
  - intros [=]. by subst.
Qed.


(** * Further properties of the equivalent stresses *)

Lemma Forall2_Exists_l {A B} (P : A → B → Prop) (Q : A → Prop) (l : list A) (k : list B) :
  Forall2 P l k → Exists Q l → ∃ a b, P a b ∧ Q a.
Proof.
  intros F. induction F as [|a b l k Pab F IH]; intros X.
  - by apply Exists_nil in X.
  - apply Exists_cons in X as [X|X]; eauto.
Qed.

(** The value [_calcMises] returns from six squares. *)
Lemma Mises_value_NN (p1 p2 p3 p4 p5 p6 : float) :
  Forall (λ p, NN (Prim2SF p)) [p1; p2; p3; p4; p5; p6] →
  NN (Prim2SF (np_sqrt (p1 + p2 + p3 + of_int 6 * (p4 + p5 + p6)))%py).
Proof.
  intros F. repeat (apply Forall_cons in F as [? F]). cbn.
  apply F_sqrt_NN, F_add_NN; [by repeat apply F_add_NN|].
  eapply (F_mul_NN (float_of_int 6)); [reflexivity|]. by repeat apply F_add_NN.
Qed.

(** X23: in binary64, for every C library meeting the contract, a
    real-valued difference of normals or shear of size [2^512] or more makes
    [HuberStress] raise [OverflowError], where the sums and products of the
    same size would give an infinity. *)
Theorem HuberStress_overflow (pf : libm) (t : StressTensor float) :
  libm_contract pf →
  Exists (λ d, is_finite d = true ∧ PrimFloat.leb 0x1p512 (PrimFloat.abs d) = true)
         (squared_by_HuberStress t) →
  HuberStress t = Raise OverflowError.
Proof.
  intros Hpf X. destruct (HuberStress t) as [r|e] eqn:E.
  - destruct (HuberStress_inv t r E) as (p1 & p2 & p3 & p4 & p5 & p6 & P & _).
    destruct (Forall2_Exists_l _ _ _ _ P X) as (d & p & Ed & Hf & Hb).
    by rewrite (float_pow2_overflow Hpf d Hf Hb) in Ed.
  - f_equal. by apply (HuberStress_only_overflow Hpf t).
Qed.

Lemma HuberStress_overflow_witness :
  let pf : libm := correctly_rounded in
  HuberStress (mkStressTensor 1 2 3 0 (-0x1p600) 0)%float = Raise OverflowError.
Proof.
  apply (HuberStress_overflow correctly_rounded
           (mkStressTensor 1 2 3 0 (-0x1p600) 0)%float correctly_rounded_contract).
  unfold squared_by_HuberStress. cbn [sx sy sz sxy syz szx].
  do 4 apply Exists_cons_tl. apply Exists_cons_hd. by split.
Defined.

(** X24: in binary64, for every C library meeting the contract,
    [_calcMises] of six real-valued numbers raises nothing but
    [OverflowError], and a value it returns is not negative and not NaN. *)
Theorem calcMises_nonneg (pf : libm) (x y z xy yz zx : float) :
  libm_contract pf →
  Forall (λ v, is_finite v = true) [x; y; z; xy; yz; zx] →
  only_overflow (_calcMises x y z xy yz zx)
  ∧ ∀ r, _calcMises x y z xy yz zx = Ok r → PrimFloat.leb 0 r = true.
Proof.
  intros Hpf F. split; [by apply calcMises_only_overflow|].
  repeat (apply Forall_cons in F as [? F]).
  intros r E. unfold _calcMises in E.
  apply bind_Ok_inv in E as (p1 & E1 & E). apply bind_Ok_inv in E as (p2 & E2 & E).
  apply bind_Ok_inv in E as (p3 & E3 & E). apply bind_Ok_inv in E as (p4 & E4 & E).
  apply bind_Ok_inv in E as (p5 & E5 & E). apply bind_Ok_inv in E as (p6 & E6 & E).
  injection E as <-. apply F_NN_leb, Mises_value_NN.
  repeat constructor;
    (eapply (float_pow2_NN Hpf); [|eassumption]);
    first [by apply float_sub_not_nan | by apply float_finite_not_nan].
Qed.

Lemma calcMises_nonneg_witness :
  let pf : libm := correctly_rounded in
  only_overflow (_calcMises 30 (-22.75) 0 1 (-1) 4)%float
  ∧ ∀ r, (_calcMises 30 (-22.75) 0 1 (-1) 4)%float = Ok r → PrimFloat.leb 0 r = true.
Proof.
  apply (calcMises_nonneg correctly_rounded 30 (-22.75) 0 1 (-1) 4 correctly_rounded_contract).
  repeat constructor.
Defined.

(** X25: in any arithmetic, a call of [calculateWalker] that returns
    returns a sequence of three numbers, one for each normal direction,
    and not one number. *)
Theorem calculateWalker_three {T : Type} `{Scalar T} `{Pow2 T}
    (a b : StressTensor T) (r : list T) :
  calculateWalker a b = Ok r → length r = 3.
Proof.
  unfold calculateWalker, calculateWalker_locals.
  cbn [stressComponents zip zip_with fmap list_fmap unpack6 mbind result_bind].
  destruct (_calcMises _ _ _ _ _ _) as [m|e], (_calcMises _ _ _ _ _ _) as [m'|e'];
    cbn [mbind result_bind sa]; try discriminate.
  by intros [= <-].
Qed.

Lemma calculateWalker_three_witness :
  let pf : libm := correctly_rounded in
  let r := [0x1.703e9680f53c8p+5; -0x1.703e9680f53c8p+5; 0]%float in
  calculateWalker (mkStressTensor 120 (-35.5) 8 4 0 (-2))%float
                  (mkStressTensor 60 10 8 1 0 2)%float = Ok r
  ∧ length r = 3.
Proof.
  intros pf r. split; [vm_compute; reflexivity|].
  apply (calculateWalker_three (mkStressTensor 120 (-35.5) 8 4 0 (-2))%float
           (mkStressTensor 60 10 8 1 0 2)%float r).
  vm_compute. reflexivity.
Defined.

(** ** Reversing signs *)

Lemma binary_round_aux_opp (s : bool) (m e : Z) (l : location) :
  binary_round_aux prec emax (negb s) m e l = SFopp (binary_round_aux prec emax s m e l).
Proof.
  unfold binary_round_aux.
  destruct (shr_fexp prec emax m e l) as [r1 e1].
  destruct (shr_fexp prec emax _ e1 loc_Exact) as [r2 e2].
  destruct (shr_m r2); [done| |done]. by destruct (_ <=? _)%Z.
Qed.

Lemma binary_round_opp (s : bool) (m : positive) (e : Z) :
  binary_round prec emax (negb s) m e = SFopp (binary_round prec emax s m e).
Proof.
  unfold binary_round. destruct (shl_align _ _ _). apply binary_round_aux_opp.
Qed.

(** [(-x) - (-y)] is [-(x - y)], or both are zeros. *)
Lemma SFsub_opp X Y :
  SF64sub (SFopp X) (SFopp Y) = SFopp (SF64sub X Y)
  ∨ ∃ s s', SF64sub (SFopp X) (SFopp Y) = S754_zero s ∧ SF64sub X Y = S754_zero s'.
Proof.
  destruct X as [[]|[]| |sx mx ex], Y as [[]|[]| |sy my ey];
    try (by left); try (by right; eauto).
  all: try (left; cbn; by rewrite ?negb_involutive).
  unfold SF64sub, SFsub, SFopp. cbv zeta.
    destruct (shl_align mx ex _) as [a ea], (shl_align my ey _) as [b eb]. cbn [fst].
    set (D := (cond_Zopp sx (Z.pos a) - cond_Zopp sy (Z.pos b))%Z).
    assert (E : (cond_Zopp (negb sx) (Z.pos a) - cond_Zopp (negb sy) (Z.pos b))%Z = (- D)%Z)
      by (subst D; destruct sx, sy; cbn; lia).
    rewrite E. destruct D as [|d|d]; cbn [Z.opp binary_normalize].
    + right. eauto.
    + left. apply (binary_round_opp false).
    + left. apply (binary_round_opp true).
Qed.

Lemma float_sub_opp (x y : float) :
  (- x - - y = - (x - y))%float
  ∨ (PrimFloat.eqb (- x - - y) 0 = true ∧ PrimFloat.eqb (x - y) 0 = true).
Proof.
  destruct (SFsub_opp (Prim2SF x) (Prim2SF y)) as [E | (s & s' & E1 & E2)].
  - left. apply Prim2SF_inj. by rewrite sub_spec, !opp_spec, sub_spec.
  - right. rewrite !FloatAxioms.eqb_spec, !sub_spec, !opp_spec, E1, E2.
    by destruct s, s'.
Qed.

Lemma float_abs_opp (x : float) : PrimFloat.abs (- x) = PrimFloat.abs x.
Proof.
  apply Prim2SF_inj. rewrite !abs_spec, opp_spec. by destruct (Prim2SF x).
Qed.

Lemma float_eqb_opp_zero (x : float) : PrimFloat.eqb (- x) 0 = PrimFloat.eqb x 0.
Proof.
  rewrite !FloatAxioms.eqb_spec, opp_spec. by destruct (Prim2SF x) as [[]|[]| |[] m e].
Qed.

Lemma float_is_nan_opp (x : float) : is_nan (- x) = is_nan x.
Proof.
  unfold is_nan. rewrite !FloatAxioms.eqb_spec, opp_spec.
  destruct (Prim2SF x) as [[]|[]| |s m e]; try done.
  cbn [SFopp]. by rewrite !SFeqb_finite_refl.
Qed.

Section Even.
Context {pf : libm}.

(** The square does not see the sign. *)
Lemma float_pow2_opp (x : float) : py_pow2 (- x)%float = py_pow2 x.
Proof.
  unfold py_pow2, float_power, float_pow2.
  rewrite float_is_nan_opp. unfold is_infinity at 1. rewrite float_abs_opp.
  fold (is_infinity x). rewrite float_eqb_opp_zero.
  destruct (is_nan x) eqn:Hn.
  { f_equal. apply Prim2SF_inj. rewrite opp_spec.
    unfold is_nan in Hn. rewrite FloatAxioms.eqb_spec in Hn.
    destruct (Prim2SF x) as [[]|[]| |s m e]; try done.
    by rewrite SFeqb_finite_refl in Hn. }
  destruct (is_infinity x) eqn:Hi; [done|].
  destruct (PrimFloat.eqb x 0) eqn:Hz; [done|].
  destruct (pow2_operand x Hn Hi Hz) as (-> & _).
  assert (Hn' : is_nan (- x) = false) by (by rewrite float_is_nan_opp).
  assert (Hi' : is_infinity (- x) = false)
    by (unfold is_infinity; rewrite float_abs_opp; exact Hi).
  assert (Hz' : PrimFloat.eqb (- x) 0 = false) by (by rewrite float_eqb_opp_zero).
  destruct (pow2_operand (- x) Hn' Hi' Hz') as (-> & _).
  by rewrite float_abs_opp.
Qed.

Lemma float_pow2_sub_opp (x y : float) :
  py_pow2 (- x - - y)%float = py_pow2 (x - y)%float.
Proof.
  destruct (float_sub_opp x y) as [-> | [Z1 Z2]]; [apply float_pow2_opp|].
  by rewrite !float_pow2_zero.
Qed.
End Even.

(** X26: in binary64, for every C library, [HuberStress] does not see the
    sign of the loading: the tensor with all six components negated has the
    same Huber stress, value or exception. *)
Theorem HuberStress_even (pf : libm) (t : StressTensor float) :
  HuberStress (reversed t) = HuberStress t.
Proof.
  unfold HuberStress, reversed. cbn [sx sy sz sxy syz szx py_sub float_scalar].
  by rewrite (float_pow2_sub_opp (sx t)), (float_pow2_sub_opp (sy t)),
     (float_pow2_sub_opp (sz t)), !float_pow2_opp.
Qed.

Lemma float_add_0_eqb (x : float) : PrimFloat.eqb (x + 0) x = negb (is_nan x).
Proof.
  unfold is_nan. rewrite negb_involutive, !FloatAxioms.eqb_spec, add_spec.
  by destruct (Prim2SF x) as [[]|[]| |s m e].
Qed.

(** X27: in binary64, adding the default tensor [StressTensor()] to [a]
    gives a new tensor that compares equal to [a] exactly when no
    component of [a] is NaN (the sum of [-0.0] and [0] is [0.0], which
    [==] does not tell from [-0.0]). *)
Theorem add_default_tensor_float (h : gmap loc (StressTensor float)) (a z : loc)
    (ta : StressTensor float) :
  h !! a = Some ta →
  h !! z = Some (__init__ None None None None None None) →
  ∃ (r : loc) (h' : gmap loc (StressTensor float)) (tr : StressTensor float),
    __add__ a z h = Ok (r, h')
    ∧ h' !! r = Some tr
    ∧ __eq__ tr (as_object ta)
      = Ok (forallb (λ x, negb (is_nan x)) (stressComponents ta)).
Proof.
  intros Ea Ez. eexists _, _, _.
  split; [by apply add_ok|]. split; [apply lookup_insert_eq|].
  rewrite eq_tensors. unfold tensor_sum, __init__. cbn.
  rewrite !float_add_0_eqb, andb_true_r. by rewrite !andb_assoc.
Qed.

Lemma add_default_tensor_float_witness :
  ∃ (r : loc) (h' : gmap loc (StressTensor float)) (tr : StressTensor float),
    __add__ 1%positive 2%positive
      ({[ 1%positive := (mkStressTensor (-0) 20 30 40 50 60)%float;
          2%positive := __init__ None None None None None None ]}
         : gmap loc (StressTensor float)) = Ok (r, h')
    ∧ h' !! r = Some tr
    ∧ __eq__ tr (as_object (mkStressTensor (-0) 20 30 40 50 60)%float)
      = Ok (forallb (λ x, negb (is_nan x))
              (stressComponents (mkStressTensor (-0) 20 30 40 50 60)%float)).
Proof.
  apply (add_default_tensor_float _ 1%positive 2%positive); reflexivity.
Defined.
